(** * Sudoku engine (logic.js): constraint checker, backtracking solver,
      puzzle generator.

    logic.js comes in two revisions; this is the current one, the one
    main.js calls ([solveBoardWithStats], [buildCandidateCube],
    [generatePuzzle]).

    The JavaScript arrays are lists read with stdpp's lookup and written
    with insert/alter.  Cells hold integers ([Z]); row and column indices
    are naturals.  A read outside the grid is [None] (JavaScript's
    [undefined]), which compares equal to no number.  The engine is only
    ever handed 9x9 grids ([wf_board]); a write outside the grid is not
    modelled (JavaScript would grow the array, stdpp's insert does nothing).

    [Math.random] is an explicit tape of draws, [performance.now] two clock
    readings, and the recursion of [backtrack] is bounded by a fuel
    argument ([None] stands for a run that produced no result within the
    model: the fuel ran out, or the candidate cube has no entry at a place
    the code reads). *)

From stdpp Require Import base numbers list strings.
From Stdlib Require Import QArith.
Local Open Scope nat_scope.

(** ** Data model *)

Abbreviation Board := (list (list Z)).
Abbreviation Pos := (nat * nat)%type.
Abbreviation Cube := (list (list (list Z))).

(** [board[r][c]] *)
Definition get (board : Board) (r c : nat) : option Z :=
  match board !! r with
  | Some row => row !! c
  | None => None
  end.

(** [board[r][c] === num] *)
Definition cell_is (board : Board) (r c : nat) (num : Z) : bool :=
  bool_decide (get board r c = Some num).

(** [board[r][c] = v] *)
Definition set_cell (board : Board) (r c : nat) (v : Z) : Board :=
  alter (fun row => <[c := v]> row) r board.

(** [cube[r][c]] *)
Definition cube_at (cube : Cube) (r c : nat) : option (list Z) :=
  match cube !! r with
  | Some row => row !! c
  | None => None
  end.

(** The index range of [for (let i = 0; i < 9; i++)]. *)
Definition idx9 : list nat := seq 0 9.

(** All 81 positions in the order of the nested [r]/[c] loops. *)
Definition positions : list Pos :=
  r ← idx9; c ← idx9; [(r, c)].

(** ** Constraint checker *)

Definition isValidPlacement (board : Board) (row col : nat) (num : Z) : bool :=
  if existsb (fun c => negb (c =? col) && cell_is board row c num) idx9
  then false
  else if existsb (fun r => negb (r =? row) && cell_is board r col num) idx9
  then false
  else
    let boxR := row / 3 * 3 in
    let boxC := col / 3 * 3 in
    if existsb (fun r =>
         existsb (fun c =>
           (negb (r =? row) || negb (c =? col)) && cell_is board r c num)
           (seq boxC 3))
         (seq boxR 3)
    then false
    else true.

(** One iteration of the inner loop of [validateBoard]: the conflict list
    after cell [(r, c)] has been looked at. *)
Definition validate_cell (board : Board) (r : nat) (conflicts : list Pos)
    (c : nat) : list Pos :=
  match get board r c with
  | None => conflicts  (* no such cell on a 9x9 grid *)
  | Some val =>
      if (val =? 0)%Z then conflicts
      else if (val <? 1)%Z || (val >? 9)%Z then conflicts ++ [(r, c)]
      else if negb (isValidPlacement board r c val) then conflicts ++ [(r, c)]
      else conflicts
  end.

Definition validateBoard (board : Board) : list Pos :=
  foldl (fun conflicts r => foldl (validate_cell board r) conflicts idx9)
        [] idx9.

Definition isBoardComplete (board : Board) : bool :=
  forallb (fun r => forallb (fun c => negb (cell_is board r c 0)) idx9) idx9.

Definition isBoardSolved (board : Board) : bool :=
  isBoardComplete board && (length (validateBoard board) =? 0).

(** [board.map(row => [...row])] *)
Definition cloneBoard (board : Board) : Board := map (fun row => row) board.

(** ** Randomness and shuffling *)

(** The tape of the draws of [Math.random]; [draw tape n] is
    [Math.floor(Math.random() * n)], a number below [n], together with the
    rest of the tape.  An exhausted tape keeps drawing 0. *)
Abbreviation Tape := (list nat).

Definition draw (tape : Tape) (n : nat) : nat * Tape :=
  match tape with
  | [] => (0, [])
  | x :: tape' => (x mod n, tape')
  end.

(** [[arr[i], arr[j]] = [arr[j], arr[i]]] *)
Definition swap {A} (arr : list A) (i j : nat) : list A :=
  match arr !! i, arr !! j with
  | Some x, Some y => <[j := x]> (<[i := y]> arr)
  | _, _ => arr
  end.

(** The loop of [shuffleArray], entered with loop variable [i]; it runs
    while [i > 0]. *)
Fixpoint shuffle_from {A} (i : nat) (arr : list A) (tape : Tape)
    : list A * Tape :=
  match i with
  | 0 => (arr, tape)
  | S i' =>
      let '(j, tape') := draw tape (i + 1) in
      shuffle_from i' (swap arr i j) tape'
  end.

Definition shuffleArray {A} (arr : list A) (tape : Tape) : list A * Tape :=
  shuffle_from (length arr - 1) arr tape.

Definition digits : list Z := [1; 2; 3; 4; 5; 6; 7; 8; 9]%Z.

(** One row of the cube: nine shuffles of [[1..9]]. *)
Definition build_cube_row (tape : Tape) : list (list Z) * Tape :=
  foldl (fun '(row, tape) (_ : nat) =>
           let '(cands, tape') := shuffleArray digits tape in
           (row ++ [cands], tape'))
        ([], tape) idx9.

Definition buildCandidateCube (tape : Tape) : Cube * Tape :=
  foldl (fun '(cube, tape) (_ : nat) =>
           let '(row, tape') := build_cube_row tape in
           (cube ++ [row], tape'))
        ([], tape) idx9.

(** ** Backtracking solver *)

(** The variables the closure [backtrack] mutates: the board and
    [stats.backtracks]. *)
Record SolverState := mkState { st_board : Board; st_backtracks : Z }.

(** First [(r, c)] in scan order with [board[r][c] === 0]. *)
Definition first_empty (b : Board) : option Pos :=
  List.find (fun p => cell_is b p.1 p.2 0) positions.

(** The loop [for (let k = 0; k < 9; k++)] over the remaining indices [ks];
    [rec] is the recursive call [backtrack()]. *)
Fixpoint try_candidates (rec : SolverState -> option (bool * SolverState))
    (r c : nat) (candidates : list Z) (ks : list nat) (st : SolverState)
    : option (bool * SolverState) :=
  match ks with
  | [] => Some (false, st)
  | k :: ks' =>
      match candidates !! k with
      | None => None
      | Some num =>
          if isValidPlacement (st_board st) r c num then
            match rec (mkState (set_cell (st_board st) r c num) (st_backtracks st)) with
            | None => None
            | Some (true, st') => Some (true, st')
            | Some (false, st') =>
                try_candidates rec r c candidates ks'
                  (mkState (set_cell (st_board st') r c 0) (st_backtracks st' + 1))
            end
          else try_candidates rec r c candidates ks' st
      end
  end.

Fixpoint backtrack (fuel : nat) (cube : Cube) (st : SolverState)
    : option (bool * SolverState) :=
  match fuel with
  | 0 => None
  | S fuel' =>
      match first_empty (st_board st) with
      | None => Some (true, st)
      | Some (r, c) =>
          match cube_at cube r c with
          | None => None
          | Some candidates =>
              try_candidates (backtrack fuel' cube) r c candidates idx9 st
          end
      end
  end.

(** [if (!cube) { cube = buildCandidateCube(); }]: the cube the search
    reads, and the tape after it. *)
Definition resolve_cube (cube : option Cube) (tape : Tape) : Cube * Tape :=
  match cube with
  | Some cb => (cb, tape)
  | None => buildCandidateCube tape
  end.

Record Stats := mkStats { solved : bool; backtracks : Z; elapsedMs : Q }.

(** [solveBoardWithStats(board, cube)]: [cube = None] is the call without a
    cube; [t0] and [t1] are the readings of [performance.now()] before and
    after the search.  Returns the statistics, the board as the call leaves
    it, and the rest of the tape. *)
Definition solveBoardWithStats (fuel : nat) (b : Board) (cube : option Cube)
    (tape : Tape) (t0 t1 : Q) : option (Stats * Board * Tape) :=
  let '(cube', tape') := resolve_cube cube tape in
  match backtrack fuel cube' (mkState b 0) with
  | None => None
  | Some (ok, st) =>
      Some (mkStats ok (st_backtracks st) (t1 - t0)%Q, st_board st, tape')
  end.

Definition solveBoard (fuel : nat) (b : Board) (tape : Tape) (t0 t1 : Q)
    : option (bool * Board * Tape) :=
  match solveBoardWithStats fuel b None tape t0 t1 with
  | None => None
  | Some (result, b', tape') => Some (solved result, b', tape')
  end.

(** ** Puzzle generator *)

Definition empty_board : Board := replicate 9 (replicate 9 0%Z).

Definition generateFullSolution (fuel : nat) (tape : Tape) (t0 t1 : Q)
    : option (Board * Stats * Tape) :=
  let '(cube, tape') := buildCandidateCube tape in
  match solveBoardWithStats fuel empty_board (Some cube) tape' t0 t1 with
  | None => None
  | Some (stats, b, tape'') => Some (b, stats, tape'')
  end.

Record Generated := mkGenerated
  { puzzle : Board; solution : Board; stats : Stats }.

(** The removal loop: [for (i = 0; i < toRemove && i < positions.length; i++)]. *)
Definition remove_cells (toRemove : Z) (shuffled : list Pos) (p : Board)
    : Board :=
  foldl (fun p i =>
           if (Z.of_nat i <? toRemove)%Z then
             match shuffled !! i with
             | Some (r, c) => set_cell p r c 0
             | None => p
             end
           else p)
        p (seq 0 (length shuffled)).

Definition generatePuzzle (fuel : nat) (clues : Z) (tape : Tape) (t0 t1 : Q)
    : option (Generated * Tape) :=
  match generateFullSolution fuel tape t0 t1 with
  | None => None
  | Some (sol, stats, tape') =>
      let p := cloneBoard sol in
      let '(shuffled, tape'') := shuffleArray positions tape' in
      let toRemove := (81 - clues)%Z in
      Some (mkGenerated (remove_cells toRemove shuffled p) sol stats, tape'')
  end.

(** * The earlier revision of logic.js

    The first revision has the same [isValidPlacement] and [cloneBoard], a
    [validateBoard] without the range check and a [solveBoard] that tries
    1..9 in ascending order and keeps no statistics. *)

Module Legacy.

Definition validate_cell (board : Board) (r : nat) (conflicts : list Pos)
    (c : nat) : list Pos :=
  match get board r c with
  | None => conflicts  (* no such cell on a 9x9 grid *)
  | Some val =>
      if (val =? 0)%Z then conflicts
      else if negb (isValidPlacement board r c val) then conflicts ++ [(r, c)]
      else conflicts
  end.

Definition validateBoard (board : Board) : list Pos :=
  foldl (fun conflicts r => foldl (validate_cell board r) conflicts idx9)
        [] idx9.

(** The loop [for (let num = 1; num <= 9; num++)] over the remaining
    numbers; [rec] is the recursive call [solveBoard(board)]. *)
Fixpoint try_numbers (rec : Board -> option (bool * Board)) (r c : nat)
    (nums : list Z) (b : Board) : option (bool * Board) :=
  match nums with
  | [] => Some (false, b)
  | num :: nums' =>
      if isValidPlacement b r c num then
        match rec (set_cell b r c num) with
        | None => None
        | Some (true, b') => Some (true, b')
        | Some (false, b') => try_numbers rec r c nums' (set_cell b' r c 0)
        end
      else try_numbers rec r c nums' b
  end.

Fixpoint solveBoard (fuel : nat) (b : Board) : option (bool * Board) :=
  match fuel with
  | 0 => None
  | S fuel' =>
      match first_empty b with
      | None => Some (true, b)
      | Some (r, c) => try_numbers (solveBoard fuel') r c digits b
      end
  end.

End Legacy.

(** * main.js: the callers of the engine

    The DOM is left out: the board a handler reads with [readBoard] is its
    argument, and what it shows (status line, highlighted cells, dialog,
    cells written, statistics) is its outcome.  The body of a [setTimeout]
    callback runs on the board read before it was scheduled. *)

(** What [attemptSolve] leaves on the screen. *)
Inductive SolveOutcome :=
  | AlreadyValid
      (* no highlight; 'This board is already a valid, complete Sudoku!' *)
  | FullWithConflicts (conflicts : list Pos)
      (* highlighted; 'Board is full but has n conflict(s).' *)
  | AskConfirmation (conflicts : list Pos)
      (* highlighted; the dialog is opened; 'n conflict(s) detected' *)
  | ShowSolved (clone : Board) (stats : Stats)
      (* writeBoard(clone, true); 'Puzzle solved!'; showStats(stats) *)
  | ShowNoSolution (stats : Stats).
      (* 'No solution exists for this configuration.'; showStats(stats) *)

Definition attemptSolve (fuel : nat) (board : Board) (force : bool)
    (tape : Tape) (t0 t1 : Q) : option (SolveOutcome * Tape) :=
  if isBoardComplete board then
    let conflicts := validateBoard board in
    if length conflicts =? 0 then Some (AlreadyValid, tape)
    else Some (FullWithConflicts conflicts, tape)
  else
    let conflicts := validateBoard board in
    if (0 <? length conflicts) && negb force
    then Some (AskConfirmation conflicts, tape)
    else
      let clone := cloneBoard board in
      let '(cube, tape') := buildCandidateCube tape in
      match solveBoardWithStats fuel clone (Some cube) tape' t0 t1 with
      | None => None
      | Some (stats, clone', tape'') =>
          if solved stats then Some (ShowSolved clone' stats, tape'')
          else Some (ShowNoSolution stats, tape'')
      end.

(** What [verifyBoard] reports. *)
Inductive VerifyOutcome :=
  | NothingToVerify                  (* 'Board is empty' *)
  | Invalid (conflicts : list Pos)   (* 'Invalid: n conflict(s) found.' *)
  | ValidSolution                    (* 'Your input is a valid Sudoku solution!' *)
  | ValidSoFar (filled : nat).       (* 'Valid so far! n/81 cells filled' *)

(** The counting loop of [verifyBoard]: cells with [board[r][c] !== 0]. *)
Definition filledCount (board : Board) : nat :=
  foldl (fun n r =>
           foldl (fun n c => if negb (cell_is board r c 0) then n + 1 else n)
                 n idx9)
        0 idx9.

Definition verifyBoard (board : Board) : VerifyOutcome :=
  let filled := filledCount board in
  if filled =? 0 then NothingToVerify
  else
    let conflicts := validateBoard board in
    if 0 <? length conflicts then Invalid conflicts
    else if isBoardComplete board then ValidSolution
    else ValidSoFar filled.

(** The [switch (difficulty)] of [generateRandomPuzzle]. *)
Definition clues_for (difficulty : string) : Z :=
  if String.eqb difficulty "easy"%string then 42
  else if String.eqb difficulty "medium"%string then 32
  else if String.eqb difficulty "hard"%string then 24
  else 32.

(** [generateRandomPuzzle]: [difficultySelect] is the value of the select
    element, [None] when the element is missing.  Returns what the callback
    gets from [generatePuzzle] and the clue count of its status line. *)
Definition generateRandomPuzzle (fuel : nat)
    (difficultySelect : option string) (tape : Tape) (t0 t1 : Q)
    : option (Generated * Z * Tape) :=
  let difficulty :=
    match difficultySelect with
    | Some value => value
    | None => "medium"%string
    end in
  let clues := clues_for difficulty in
  match generatePuzzle fuel clues tape t0 t1 with
  | None => None
  | Some (g, tape') => Some (g, clues, tape')
  end.

(** The cell [handleNavigation] moves the focus to, for the key pressed in
    cell [(row, col)]; [None] for the keys that return before the focus
    moves (Backspace and Delete clear the cell, other keys do nothing). *)
Definition handleNavigation (key : string) (row col : Z)
    : option (Z * Z) :=
  if String.eqb key "ArrowUp"%string then Some (Z.max 0 (row - 1), col)
  else if String.eqb key "ArrowDown"%string then Some (Z.min 8 (row + 1), col)
  else if String.eqb key "ArrowLeft"%string then Some (row, Z.max 0 (col - 1))
  else if String.eqb key "ArrowRight"%string then Some (row, Z.min 8 (col + 1))
  else None.

(** * Vocabulary of the properties *)

(** ** Shapes *)

(** A 9x9 grid. *)
Definition wf_board (b : Board) : Prop :=
  length b = 9 ∧ Forall (fun row => length row = 9) b.

#[global] Instance wf_board_dec b : Decision (wf_board b).
Proof. unfold wf_board. apply _. Defined.

(** Every cell value is a digit or the empty mark. *)
Definition in_range (b : Board) : Prop :=
  Forall (Forall (fun v => (0 ≤ v ≤ 9)%Z)) b.

#[global] Instance in_range_dec b : Decision (in_range b).
Proof. unfold in_range. apply _. Defined.

(** The cube of the data model as far as the search depends on it: 9x9
    cells of nine candidates, each a digit 1..9. *)
Definition wf_cube (cube : Cube) : Prop :=
  length cube = 9 ∧
  Forall (fun row => length row = 9 ∧
    Forall (fun cands => length cands = 9 ∧
      Forall (fun v => (1 ≤ v ≤ 9)%Z) cands) row) cube.

#[global] Instance wf_cube_dec cube : Decision (wf_cube cube).
Proof. unfold wf_cube. apply _. Defined.

(** Every cell of the cube holds each of 1..9 exactly once. *)
Definition perm_cube (cube : Cube) : Prop :=
  length cube = 9 ∧
  Forall (fun row => length row = 9 ∧ Forall (fun cands => cands ≡ₚ digits) row)
         cube.

(** What a caller may pass as cube: nothing, or a cube of the data model. *)
Definition cube_ok (cube : option Cube) : Prop :=
  match cube with
  | Some cb => wf_cube cb
  | None => True
  end.

(** ** Conflicts *)

(** [(r', c')] is another cell of the row, the column or the 3x3 box of
    [(r, c)]. *)
Definition peer (r c r' c' : nat) : Prop :=
  (r' = r ∧ c' ≠ c) ∨ (c' = c ∧ r' ≠ r) ∨
  (r' / 3 = r / 3 ∧ c' / 3 = c / 3 ∧ (r' ≠ r ∨ c' ≠ c)).

#[global] Instance peer_dec r c r' c' : Decision (peer r c r' c').
Proof. unfold peer. apply _. Defined.

(** The cells [validateBoard] is described to report: non-zero, and either
    outside 1..9 or rejected by [isValidPlacement]. *)
Definition conflicting (b : Board) (p : Pos) : bool :=
  match get b p.1 p.2 with
  | Some v =>
      negb (v =? 0)%Z &&
      ((v <? 1)%Z || (v >? 9)%Z || negb (isValidPlacement b p.1 p.2 v))
  | None => false
  end.

(** No filled cell of the grid is out of range or clashes with a peer. *)
Definition no_conflict (b : Board) : Prop :=
  ∀ r c v, r < 9 → c < 9 → get b r c = Some v → v ≠ 0%Z →
           (1 ≤ v ≤ 9)%Z ∧ isValidPlacement b r c v = true.

(** ** Finished grids *)

Definition row_cells (r : nat) : list Pos := map (pair r) idx9.
Definition col_cells (c : nat) : list Pos := map (fun r => (r, c)) idx9.
Definition box_cells (br bc : nat) : list Pos :=
  r ← seq (3 * br) 3; c ← seq (3 * bc) 3; [(r, c)].

(** The contents of a list of cells. *)
Definition unit_values (b : Board) (cells : list Pos) : list (option Z) :=
  map (fun p => get b p.1 p.2) cells.

(** The nine cells hold each digit 1..9 exactly once. *)
Definition each_digit_once (b : Board) (cells : list Pos) : Prop :=
  unit_values b cells ≡ₚ Some <$> digits.

(** Every row, every column and every 3x3 box holds each digit once. *)
Definition valid_solution (b : Board) : Prop :=
  (∀ r, r < 9 → each_digit_once b (row_cells r)) ∧
  (∀ c, c < 9 → each_digit_once b (col_cells c)) ∧
  (∀ br bc, br < 3 → bc < 3 → each_digit_once b (box_cells br bc)).

(** Nine distinct cells of the grid, any two of them peers. *)
Definition is_unit (cells : list Pos) : Prop :=
  length cells = 9 ∧ NoDup cells ∧
  Forall (fun p => p.1 < 9 ∧ p.2 < 9) cells ∧
  Forall (fun p => Forall (fun q => p ≠ q → peer p.1 p.2 q.1 q.2) cells) cells.

#[global] Instance is_unit_dec cells : Decision (is_unit cells).
Proof. unfold is_unit. apply _. Defined.

(** A finished grid: 9x9, no empty cell, no conflict. *)
Definition is_solution (s : Board) : Prop :=
  wf_board s ∧ no_conflict s ∧ ∀ r c, r < 9 → c < 9 → get s r c ≠ Some 0%Z.

(** ** The search *)

(** [b'] keeps every filled cell of [b]. *)
Definition extends (b b' : Board) : Prop :=
  ∀ r c v, get b r c = Some v → v ≠ 0%Z → get b' r c = Some v.

(** What a call of [backtrack] entered in [st] guarantees when it returns
    [ok] in [st']. *)
Record returns_ok (st : SolverState) (ok : bool) (st' : SolverState) : Prop :=
  { ret_restore : ok = false → st_board st' = st_board st;
    ret_extends : extends (st_board st) (st_board st');
    ret_count : (st_backtracks st ≤ st_backtracks st')%Z;
    ret_full : ok = true → first_empty (st_board st') = None }.

(** The number of empty cells of the grid: the measure of the recursion. *)
Definition count_empty (b : Board) : nat :=
  length (filter (fun p : Pos => get b p.1 p.2 = Some 0%Z) positions).

(** Candidate [w] for the empty cell [(r, c)] of [b] is given up: rejected
    by [isValidPlacement], or placed and the recursive call [rec] returned
    false. *)
Definition given_up (rec : SolverState → option (bool * SolverState))
    (b : Board) (r c : nat) (w : Z) : Prop :=
  isValidPlacement b r c w = false ∨
  ∃ cnt s', rec (mkState (set_cell b r c w) cnt) = Some (false, s').

(** ** The generator *)

(** A cell of the grid that holds a value other than 0. *)
Definition is_clue (b : Board) (p : Pos) : Prop :=
  is_Some (get b p.1 p.2) ∧ get b p.1 p.2 ≠ Some 0%Z.

#[global] Instance is_clue_dec b p : Decision (is_clue b p).
Proof. unfold is_clue. apply _. Defined.

(** The number of non-zero cells of the grid. *)
Definition count_clues (b : Board) : nat :=
  length (filter (is_clue b) positions).

(** [puzzle[r][c] = 0] for one shuffled position. *)
Definition zero_cell (p : Board) (pos : Pos) : Board :=
  set_cell p pos.1 pos.2 0.

(** ** Sample boards and cubes *)

(** The cube a test would inject to get the ascending order. *)
Definition ascending_cube : Cube := replicate 9 (replicate 9 digits).

(** A cube outside the data model: every candidate is 0. *)
Definition zero_cube : Cube := replicate 9 (replicate 9 (replicate 9 0%Z)).

(** A full board that breaks every rule. *)
Definition all_ones : Board := replicate 9 (replicate 9 1%Z).

(** The puzzle of the end-to-end scenario and its completion. *)
Definition classic_puzzle : Board :=
  [[5;3;0;0;7;0;0;0;0]; [6;0;0;1;9;5;0;0;0]; [0;9;8;0;0;0;0;6;0];
   [8;0;0;0;6;0;0;0;3]; [4;0;0;8;0;3;0;0;1]; [7;0;0;0;2;0;0;0;6];
   [0;6;0;0;0;0;2;8;0]; [0;0;0;4;1;9;0;0;5]; [0;0;0;0;8;0;0;7;9]]%Z.

Definition classic_solution : Board :=
  [[5;3;4;6;7;8;9;1;2]; [6;7;2;1;9;5;3;4;8]; [1;9;8;3;4;2;5;6;7];
   [8;5;9;7;6;1;4;2;3]; [4;2;6;8;5;3;7;9;1]; [7;1;3;9;2;4;8;5;6];
   [9;6;1;5;3;7;2;8;4]; [2;8;7;4;1;9;6;3;5]; [3;4;5;2;8;6;1;7;9]]%Z.

(** The completion with its last cell emptied. *)
Definition one_cell_left : Board :=
  <[8 := [3;4;5;2;8;6;1;7;0]%Z]> classic_solution.

(** Cell (0,0) can take 1 or 9, cell (0,8) nothing: both placements at
    (0,0) are made and undone. *)
Definition unsolvable_board : Board :=
  [[0;2;3;4;5;6;7;8;0]; [0;0;0;0;0;0;0;0;0]; [0;0;0;0;0;0;0;0;0];
   [0;0;0;0;0;0;0;0;1]; [0;0;0;0;0;0;0;0;9]; [0;0;0;0;0;0;0;0;0];
   [0;0;0;0;0;0;0;0;0]; [0;0;0;0;0;0;0;0;0]; [0;0;0;0;0;0;0;0;0]]%Z.

(** Two 5s in the first row. *)
Definition row_clash : Board :=
  <[0 := [5; 3; 0; 0; 5; 0; 0; 0; 0]%Z]> empty_board.

(** ** Solvability *)

(** The cube passed, if any, is one of the data model: every cell a
    permutation of 1..9. *)
Definition cube_perm_ok (cube : option Cube) : Prop :=
  match cube with
  | Some cb => perm_cube cb
  | None => True
  end.

(** The board can be completed to a finished grid. *)
Definition has_completion (b : Board) : Prop :=
  ∃ sol, is_solution sol ∧ extends b sol.

(** Every cell of the grid is empty. *)
Definition all_empty (b : Board) : Prop :=
  ∀ r c, r < 9 → c < 9 → get b r c = Some 0%Z.

(** A board with one value outside 1..9 and nothing else. *)
Definition out_of_range_board : Board :=
  <[0 := [12; 0; 0; 0; 0; 0; 0; 0; 0]%Z]> empty_board.

(** ** The earlier revision *)

(** The cells the earlier [validateBoard] reports: non-zero and rejected by
    [isValidPlacement]. *)
Definition legacy_conflicting (b : Board) (p : Pos) : bool :=
  match get b p.1 p.2 with
  | Some v => negb (v =? 0)%Z && negb (isValidPlacement b p.1 p.2 v)
  | None => false
  end.

(** The flag and the board of a result, without the counter. *)
Definition flag_and_board (res : bool * SolverState) : bool * Board :=
  (res.1, st_board res.2).

(** * Properties *)

(** ** Shape of the grid, reads and writes *)

Lemma get_is_Some (b : Board) r c :
  wf_board b → r < 9 → c < 9 → is_Some (get b r c).
Proof.
  intros [Hlen Hrows] Hr Hc. unfold get.
  destruct (lookup_lt_is_Some_2 b r) as [row Hrow]; [lia|].
  rewrite Hrow. apply lookup_lt_is_Some_2.
  rewrite Forall_lookup in Hrows. rewrite (Hrows _ _ Hrow). lia.
Qed.

Lemma get_Some_lt (b : Board) r c v :
  wf_board b → get b r c = Some v → r < 9 ∧ c < 9.
Proof.
  intros [Hlen Hrows]. unfold get.
  destruct (b !! r) as [row|] eqn:Hrow; [|done].
  intros Hc. rewrite Forall_lookup in Hrows.
  specialize (Hrows _ _ Hrow).
  apply lookup_lt_Some in Hrow, Hc. lia.
Qed.

Lemma get_set_cell_eq (b : Board) r c v :
  get (set_cell b r c v) r c = (fun _ => v) <$> get b r c.
Proof.
  unfold get, set_cell. rewrite list_lookup_alter_eq.
  destruct (b !! r) as [row|]; simpl; [|done].
  destruct (decide (c < length row)).
  - rewrite list_lookup_insert_eq by done.
    destruct (lookup_lt_is_Some_2 row c) as [x ->]; done.
  - rewrite list_insert_ge by lia.
    rewrite (lookup_ge_None_2 row c) by lia. done.
Qed.

Lemma get_set_cell_ne (b : Board) r c v r' c' :
  (r, c) ≠ (r', c') → get (set_cell b r c v) r' c' = get b r' c'.
Proof.
  intros Hne. unfold get, set_cell.
  destruct (decide (r = r')) as [->|Hr].
  - rewrite list_lookup_alter_eq.
    destruct (b !! r') as [row|]; simpl; [|done].
    apply list_lookup_insert_ne. congruence.
  - by rewrite list_lookup_alter_ne.
Qed.

Lemma set_cell_twice (b : Board) r c v w :
  set_cell (set_cell b r c v) r c w = set_cell b r c w.
Proof.
  unfold set_cell. rewrite list_alter_alter_eq.
  apply list_alter_ext; [|done].
  intros row _. simpl. apply list_insert_insert_eq.
Qed.

Lemma set_cell_same (b : Board) r c v :
  get b r c = Some v → set_cell b r c v = b.
Proof.
  unfold get, set_cell. destruct (b !! r) as [row|] eqn:Hrow; [|done].
  intros Hc. apply list_eq. intros i.
  destruct (decide (i = r)) as [->|Hne].
  - rewrite list_lookup_alter_eq, Hrow. simpl. by rewrite list_insert_id.
  - by rewrite list_lookup_alter_ne.
Qed.

Lemma set_cell_undo (b : Board) r c num :
  get b r c = Some 0%Z → set_cell (set_cell b r c num) r c 0 = b.
Proof. intros H. rewrite set_cell_twice. by apply set_cell_same. Qed.

Lemma wf_set_cell (b : Board) r c v : wf_board b → wf_board (set_cell b r c v).
Proof.
  intros [Hlen Hrows]. unfold set_cell. split.
  - by rewrite length_alter.
  - rewrite Forall_lookup in *. intros i row.
    destruct (decide (i = r)) as [->|Hne].
    + rewrite list_lookup_alter_eq.
      destruct (b !! r) as [row0|] eqn:Hrow; simpl; [|done].
      intros [= <-]. rewrite length_insert. eauto.
    + rewrite list_lookup_alter_ne by done. eauto.
Qed.

Lemma cloneBoard_id (b : Board) : cloneBoard b = b.
Proof. unfold cloneBoard. induction b; simpl; congruence. Qed.

(** ** The scan order *)

Lemma elem_of_positions r c : (r, c) ∈ positions ↔ r < 9 ∧ c < 9.
Proof.
  unfold positions, idx9. rewrite list_elem_of_bind. split.
  - intros (r' & Hin & Hr). apply list_elem_of_bind in Hin as (c' & Hin & Hc).
    apply list_elem_of_singleton in Hin as [= -> ->].
    apply elem_of_seq in Hr, Hc. lia.
  - intros [Hr Hc]. exists r. split; [|apply elem_of_seq; lia].
    apply list_elem_of_bind. exists c. split; [|apply elem_of_seq; lia].
    by apply list_elem_of_singleton.
Qed.

Lemma NoDup_positions : NoDup positions.
Proof. apply (bool_decide_unpack _). vm_compute. exact I. Qed.

Lemma length_positions : length positions = 81.
Proof. reflexivity. Qed.

Lemma first_empty_Some b r c :
  first_empty b = Some (r, c) → get b r c = Some 0%Z ∧ r < 9 ∧ c < 9.
Proof.
  unfold first_empty. intros H. apply find_some in H as [Hin Hz].
  apply list_elem_of_In, elem_of_positions in Hin.
  unfold cell_is in Hz. cbn [fst snd] in Hz. apply bool_decide_eq_true in Hz. done.
Qed.

Lemma first_empty_None b :
  first_empty b = None ↔ ∀ r c, r < 9 → c < 9 → get b r c ≠ Some 0%Z.
Proof.
  unfold first_empty. split.
  - intros H r c Hr Hc Hz.
    assert (Hin : In (r, c) positions)
      by (by apply list_elem_of_In, elem_of_positions).
    pose proof (find_none _ _ H (r, c) Hin) as Hn.
    unfold cell_is in Hn. cbn [fst snd] in Hn.
    by apply bool_decide_eq_false in Hn.
  - intros H. destruct (List.find _ _) as [[r c]|] eqn:Hf; [|done].
    apply first_empty_Some in Hf as (Hz & Hr & Hc). by destruct (H r c).
Qed.

Lemma isBoardComplete_true b :
  isBoardComplete b = true ↔ ∀ r c, r < 9 → c < 9 → get b r c ≠ Some 0%Z.
Proof.
  unfold isBoardComplete, idx9. rewrite forallb_forall. split.
  - intros H r c Hr Hc. specialize (H r). rewrite forallb_forall in H.
    assert (Hrin : In r (seq 0 9)) by (apply in_seq; lia).
    assert (Hcin : In c (seq 0 9)) by (apply in_seq; lia).
    specialize (H Hrin c Hcin). unfold cell_is in H.
    apply negb_true_iff, bool_decide_eq_false in H. done.
  - intros H r Hr. apply forallb_forall. intros c Hc.
    apply in_seq in Hr, Hc. unfold cell_is.
    apply negb_true_iff, bool_decide_eq_false. apply H; lia.
Qed.

Lemma isBoardComplete_first_empty b :
  isBoardComplete b = true ↔ first_empty b = None.
Proof. by rewrite isBoardComplete_true, first_empty_None. Qed.

(** ** The search: what every returning call of [backtrack] guarantees *)

Lemma extends_refl b : extends b b.
Proof. by intros r c v. Qed.

Lemma extends_trans b1 b2 b3 : extends b1 b2 → extends b2 b3 → extends b1 b3.
Proof. intros H12 H23 r c v Hv Hnz. eauto. Qed.

Lemma extends_set_cell b r c num :
  get b r c = Some 0%Z → extends b (set_cell b r c num).
Proof.
  intros Hz r' c' v Hv Hnz. rewrite get_set_cell_ne; [done|].
  intros [= -> ->]. congruence.
Qed.

Section Loop.
Variable rec : SolverState → option (bool * SolverState).
Hypothesis rec_ok : ∀ s ok s', rec s = Some (ok, s') → returns_ok s ok s'.

Lemma try_candidates_returns_ok r c cands ks st ok st' :
  get (st_board st) r c = Some 0%Z →
  try_candidates rec r c cands ks st = Some (ok, st') →
  returns_ok st ok st'.
Proof.
  revert st. induction ks as [|k ks IH]; intros st Hz; simpl.
  - intros [= <- <-]. split; auto using extends_refl; [lia|done].
  - destruct (cands !! k) as [num|]; [|done].
    destruct (isValidPlacement _ _ _ _); [|by apply IH].
    destruct (rec _) as [[[] s1]|] eqn:Hrec; [| |done].
    + intros [= <- <-]. apply rec_ok in Hrec as [_ He Hc Hf]. simpl in *.
      split; auto; [done|].
      eapply extends_trans; [by apply extends_set_cell|done].
    + apply rec_ok in Hrec as [Hr _ Hc _]. simpl in *.
      specialize (Hr eq_refl). intros Hloop.
      apply IH in Hloop; simpl.
      * destruct Hloop as [Hr' He' Hc' Hf']. simpl in *.
        rewrite Hr, set_cell_undo in * by done.
        split; auto. lia.
      * rewrite Hr, set_cell_undo by done. done.
Qed.
End Loop.

Lemma backtrack_unfold fuel cube st :
  backtrack (S fuel) cube st =
  match first_empty (st_board st) with
  | None => Some (true, st)
  | Some (r, c) =>
      match cube_at cube r c with
      | None => None
      | Some candidates =>
          try_candidates (backtrack fuel cube) r c candidates idx9 st
      end
  end.
Proof. reflexivity. Qed.

Lemma backtrack_returns_ok fuel cube st ok st' :
  backtrack fuel cube st = Some (ok, st') → returns_ok st ok st'.
Proof.
  revert st ok st'. induction fuel as [|fuel IH]; intros st ok st'; [done|].
  rewrite backtrack_unfold.
  destruct (first_empty (st_board st)) as [[r c]|] eqn:Hfe.
  - destruct (cube_at cube r c) as [cands|]; [|done].
    apply first_empty_Some in Hfe as (Hz & _ & _).
    by apply try_candidates_returns_ok.
  - intros [= <- <-]. split; auto using extends_refl; [lia].
Qed.

(** A property of the board that every accepted placement preserves holds of
    the board at return. *)
Section Invariant.
Variable cube : Cube.
Variable Inv : Board → Prop.
Hypothesis Inv_place : ∀ b r c cands k num,
  Inv b → first_empty b = Some (r, c) → cube_at cube r c = Some cands →
  cands !! k = Some num → isValidPlacement b r c num = true →
  Inv (set_cell b r c num).

Lemma try_candidates_invariant rec r c cands ks st ok st' :
  (∀ s ok s', rec s = Some (ok, s') →
     returns_ok s ok s' ∧ (Inv (st_board s) → Inv (st_board s'))) →
  first_empty (st_board st) = Some (r, c) →
  cube_at cube r c = Some cands →
  Inv (st_board st) →
  try_candidates rec r c cands ks st = Some (ok, st') →
  Inv (st_board st').
Proof.
  intros Hrec. revert st.
  induction ks as [|k ks IH]; intros st Hfe Hcube HI; simpl.
  - by intros [= <- <-].
  - destruct (cands !! k) as [num|] eqn:Hk; [|done].
    destruct (isValidPlacement _ _ _ _) eqn:Hv; [|by apply IH].
    destruct (rec _) as [[[] s1]|] eqn:Hr; [| |done].
    + intros [= <- <-]. apply Hrec in Hr as [_ Hr]. simpl in Hr.
      apply Hr. eauto.
    + apply Hrec in Hr as [[Hr _ _ _] _]. simpl in Hr.
      pose proof (first_empty_Some _ _ _ Hfe) as (Hz & _ & _).
      apply IH; [| done |];
        simpl; rewrite (Hr eq_refl), set_cell_undo by done; done.
Qed.

Lemma backtrack_invariant fuel st ok st' :
  Inv (st_board st) →
  backtrack fuel cube st = Some (ok, st') →
  Inv (st_board st').
Proof.
  revert st ok st'. induction fuel as [|fuel IH]; intros st ok st' HI; [done|].
  rewrite backtrack_unfold.
  destruct (first_empty (st_board st)) as [[r c]|] eqn:Hfe.
  - destruct (cube_at cube r c) as [cands|] eqn:Hcube; [|done].
    apply try_candidates_invariant; try done.
    intros s ok' s' Hs. split; [by eapply backtrack_returns_ok|eauto].
  - by intros [= <- <-].
Qed.
End Invariant.

Lemma backtrack_wf fuel cube st ok st' :
  wf_board (st_board st) → backtrack fuel cube st = Some (ok, st') →
  wf_board (st_board st').
Proof.
  apply backtrack_invariant. intros. by apply wf_set_cell.
Qed.

(** ** The constraint checker *)

Lemma peer_sym r c r' c' : peer r c r' c' → peer r' c' r c.
Proof. unfold peer. intros H. lia. Qed.

Lemma peer_neq r c r' c' : peer r c r' c' → (r, c) ≠ (r', c').
Proof. unfold peer. intros H [= -> ->]. lia. Qed.

Lemma existsb_false {A} (f : A → bool) (l : list A) :
  existsb f l = false ↔ ∀ x, In x l → f x = false.
Proof.
  induction l as [|a l IH]; simpl; [done|].
  rewrite orb_false_iff, IH. split.
  - intros [Ha Hl] x [<-|Hx]; auto.
  - intros H. split; auto.
Qed.

Lemma in_box_seq r r' : In r' (seq (r / 3 * 3) 3) ↔ r' / 3 = r / 3.
Proof.
  rewrite in_seq.
  pose proof (Nat.div_mod_eq r 3). pose proof (Nat.div_mod_eq r' 3).
  pose proof (Nat.mod_upper_bound r 3). pose proof (Nat.mod_upper_bound r' 3).
  lia.
Qed.

Lemma div3_lt9 r r' : r < 9 → r' / 3 = r / 3 → r' < 9.
Proof.
  intros Hr He.
  pose proof (Nat.div_mod_eq r 3). pose proof (Nat.div_mod_eq r' 3).
  pose proof (Nat.mod_upper_bound r 3). pose proof (Nat.mod_upper_bound r' 3).
  lia.
Qed.

Lemma isValidPlacement_true b r c v :
  isValidPlacement b r c v = true ↔
  ∀ r' c', r' < 9 ∨ r' / 3 = r / 3 → c' < 9 ∨ c' / 3 = c / 3 →
           peer r c r' c' → get b r' c' ≠ Some v.
Proof.
  unfold isValidPlacement, idx9, cell_is. cbv zeta.
  destruct (existsb (fun c0 => negb (c0 =? c) && _) (seq 0 9)) eqn:Hrow.
  { split; [done|]. intros H. exfalso.
    apply existsb_exists in Hrow as (c' & Hin & Hc').
    apply in_seq in Hin. apply andb_true_iff in Hc' as [Hne Hget].
    apply negb_true_iff, Nat.eqb_neq in Hne. apply bool_decide_eq_true in Hget.
    apply (H r c'); [by right|lia| |done]. unfold peer. lia. }
  destruct (existsb (fun r0 => negb (r0 =? r) && _) (seq 0 9)) eqn:Hcol.
  { split; [done|]. intros H. exfalso.
    apply existsb_exists in Hcol as (r' & Hin & Hr').
    apply in_seq in Hin. apply andb_true_iff in Hr' as [Hne Hget].
    apply negb_true_iff, Nat.eqb_neq in Hne. apply bool_decide_eq_true in Hget.
    apply (H r' c); [lia|by right| |done]. unfold peer. lia. }
  destruct (existsb _ (seq (r / 3 * 3) 3)) eqn:Hbox.
  { split; [done|]. intros H. exfalso.
    apply existsb_exists in Hbox as (r' & Hin & Hr').
    apply existsb_exists in Hr' as (c' & Hin' & Hc').
    apply in_box_seq in Hin, Hin'. apply andb_true_iff in Hc' as [Hne Hget].
    apply bool_decide_eq_true in Hget.
    apply (H r' c'); [by right|by right| |done]. unfold peer.
    apply orb_true_iff in Hne as [Hne|Hne];
      apply negb_true_iff, Nat.eqb_neq in Hne; lia. }
  split; [intros _|done]. intros r' c' Hr' Hc' Hpeer Hget.
  rewrite existsb_false in Hrow, Hcol, Hbox.
  destruct Hpeer as [[-> Hne]|[[-> Hne]|(Hr & Hc & Hne)]].
  - destruct Hc' as [Hc'|Hc'].
    + specialize (Hrow c'). rewrite in_seq in Hrow.
      rewrite (bool_decide_eq_true_2 _ Hget), andb_true_r in Hrow.
      apply negb_false_iff, Nat.eqb_eq in Hrow; [done|lia].
    + specialize (Hbox r). rewrite in_box_seq, existsb_false in Hbox.
      specialize (Hbox eq_refl c'). rewrite in_box_seq in Hbox.
      rewrite (bool_decide_eq_true_2 _ Hget), andb_true_r in Hbox.
      specialize (Hbox Hc'). apply orb_false_iff in Hbox as [_ Hbox].
      by apply negb_false_iff, Nat.eqb_eq in Hbox.
  - destruct Hr' as [Hr'|Hr'].
    + specialize (Hcol r'). rewrite in_seq in Hcol.
      rewrite (bool_decide_eq_true_2 _ Hget), andb_true_r in Hcol.
      apply negb_false_iff, Nat.eqb_eq in Hcol; [done|lia].
    + specialize (Hbox r'). rewrite in_box_seq, existsb_false in Hbox.
      specialize (Hbox Hr' c). rewrite in_box_seq in Hbox.
      rewrite (bool_decide_eq_true_2 _ Hget), andb_true_r in Hbox.
      specialize (Hbox eq_refl). apply orb_false_iff in Hbox as [Hbox _].
      by apply negb_false_iff, Nat.eqb_eq in Hbox.
  - specialize (Hbox r'). rewrite in_box_seq, existsb_false in Hbox.
    specialize (Hbox Hr c'). rewrite in_box_seq in Hbox.
    rewrite (bool_decide_eq_true_2 _ Hget), andb_true_r in Hbox.
    specialize (Hbox Hc). apply orb_false_iff in Hbox as [Hb1 Hb2].
    apply negb_false_iff, Nat.eqb_eq in Hb1, Hb2. lia.
Qed.

(** On the grid the bounds on the peer are implied. *)
Lemma isValidPlacement_peers b r c v :
  r < 9 → c < 9 →
  (isValidPlacement b r c v = true ↔
   ∀ r' c', r' < 9 → c' < 9 → peer r c r' c' → get b r' c' ≠ Some v).
Proof.
  intros Hr Hc. rewrite isValidPlacement_true. split.
  - intros H r' c' Hr' Hc'. apply H; by left.
  - intros H r' c' Hr' Hc'. apply H.
    + destruct Hr' as [|He]; [done|]. exact (div3_lt9 r r' Hr He).
    + destruct Hc' as [|He]; [done|]. exact (div3_lt9 c c' Hc He).
Qed.

Lemma validate_row_filter b r cs acc :
  foldl (validate_cell b r) acc cs =
  acc ++ List.filter (conflicting b) (map (pair r) cs).
Proof.
  revert acc. induction cs as [|c cs IH]; intros acc; simpl.
  - by rewrite app_nil_r.
  - rewrite IH. unfold validate_cell, conflicting. simpl.
    destruct (get b r c) as [v|]; [|done].
    destruct (v =? 0)%Z; simpl; [done|].
    destruct ((v <? 1)%Z || (v >? 9)%Z); simpl; [by rewrite <- app_assoc|].
    destruct (isValidPlacement b r c v); simpl; [done|by rewrite <- app_assoc].
Qed.

Lemma validate_rows_filter b rs acc :
  foldl (fun conflicts r => foldl (validate_cell b r) conflicts idx9) acc rs =
  acc ++ List.filter (conflicting b) (r ← rs; map (pair r) idx9).
Proof.
  revert acc. induction rs as [|r rs IH]; intros acc.
  - by rewrite app_nil_r.
  - cbn [foldl]. rewrite IH, validate_row_filter.
    change (mbind ?f (r :: rs)) with (f r ++ mbind f rs).
    by rewrite List.filter_app, app_assoc.
Qed.

Lemma validateBoard_filter b :
  validateBoard b = List.filter (conflicting b) positions.
Proof. unfold validateBoard. by rewrite validate_rows_filter. Qed.

Lemma elem_of_validateBoard b r c :
  In (r, c) (validateBoard b) ↔ r < 9 ∧ c < 9 ∧ conflicting b (r, c) = true.
Proof.
  rewrite validateBoard_filter, filter_In, <- list_elem_of_In, elem_of_positions.
  tauto.
Qed.

Lemma validateBoard_nil b : validateBoard b = [] ↔ no_conflict b.
Proof.
  split.
  - intros Hnil r c v Hr Hc Hget Hnz.
    assert (Hn : ¬ In (r, c) (validateBoard b)) by (rewrite Hnil; apply in_nil).
    rewrite elem_of_validateBoard in Hn. unfold conflicting in Hn. simpl in Hn.
    rewrite Hget in Hn.
    destruct (Z.eqb_spec v 0); [done|]. simpl in Hn.
    destruct (Z.ltb_spec v 1); simpl in Hn; [tauto|].
    destruct (Z.gtb_spec v 9); simpl in Hn; [tauto|].
    destruct (isValidPlacement b r c v); simpl in Hn; [|tauto].
    split; [lia|done].
  - intros Hok. destruct (validateBoard b) as [|[r c] l] eqn:Hv; [done|].
    assert (Hin : In (r, c) (validateBoard b)) by (rewrite Hv; apply in_eq).
    apply elem_of_validateBoard in Hin as (Hr & Hc & Hconf).
    unfold conflicting in Hconf. simpl in Hconf.
    destruct (get b r c) as [v|] eqn:Hget; [|done].
    apply andb_true_iff in Hconf as [Hnz Hbad].
    apply negb_true_iff, Z.eqb_neq in Hnz.
    destruct (Hok r c v Hr Hc Hget Hnz) as [Hrange Hvalid].
    rewrite Hvalid in Hbad. simpl in Hbad.
    rewrite orb_false_r in Hbad.
    apply orb_true_iff in Hbad as [Hbad|Hbad]; lia.
Qed.

Lemma no_conflict_place b r c num :
  no_conflict b → r < 9 → c < 9 → get b r c = Some 0%Z →
  (1 ≤ num ≤ 9)%Z → isValidPlacement b r c num = true →
  no_conflict (set_cell b r c num).
Proof.
  intros Hok Hr Hc Hz Hnum Hvalid r' c' v Hr' Hc' Hget Hnz.
  rewrite isValidPlacement_peers in Hvalid by done.
  destruct (decide ((r, c) = (r', c'))) as [[= <- <-]|Hne].
  - rewrite get_set_cell_eq, Hz in Hget. simplify_eq/=. split; [done|].
    apply isValidPlacement_peers; [done..|].
    intros r2 c2 Hr2 Hc2 Hpeer.
    rewrite get_set_cell_ne by by apply peer_neq. by apply Hvalid.
  - rewrite get_set_cell_ne in Hget by done.
    destruct (Hok r' c' v Hr' Hc' Hget Hnz) as [Hrange Hv]. split; [done|].
    rewrite isValidPlacement_peers in Hv |- * by done.
    intros r2 c2 Hr2 Hc2 Hpeer.
    destruct (decide ((r, c) = (r2, c2))) as [[= <- <-]|Hne2].
    + rewrite get_set_cell_eq, Hz. simpl. intros [= ->].
      by apply (Hvalid r' c' Hr' Hc' (peer_sym _ _ _ _ Hpeer)).
    + rewrite get_set_cell_ne by done. by apply Hv.
Qed.

(** ** Candidate cubes *)

Lemma wf_cube_at cube r c :
  wf_cube cube → r < 9 → c < 9 →
  ∃ cands, cube_at cube r c = Some cands ∧ length cands = 9 ∧
           Forall (fun v => (1 ≤ v ≤ 9)%Z) cands.
Proof.
  intros [Hlen Hrows] Hr Hc. unfold cube_at.
  destruct (lookup_lt_is_Some_2 cube r) as [row Hrow]; [lia|].
  rewrite Hrow. rewrite Forall_lookup in Hrows.
  destruct (Hrows _ _ Hrow) as [Hlen' Hcells].
  destruct (lookup_lt_is_Some_2 row c) as [cands Hcands]; [lia|].
  rewrite Forall_lookup in Hcells. eauto.
Qed.

(** ** Shuffling *)

Lemma draw_lt tape n : 0 < n → (draw tape n).1 < n.
Proof.
  intros Hn. destruct tape as [|x tape]; simpl; [done|].
  by apply Nat.mod_upper_bound, Nat.neq_0_lt_0.
Qed.

Lemma swap_Permutation {A} (arr : list A) i j : swap arr i j ≡ₚ arr.
Proof.
  unfold swap.
  destruct (arr !! i) as [x|] eqn:Hi; [|done].
  destruct (arr !! j) as [y|] eqn:Hj; [|done].
  pose proof (lookup_lt_Some _ _ _ Hi) as Hli.
  pose proof (lookup_lt_Some _ _ _ Hj) as Hlj.
  apply Permutation_inj. split; [by rewrite !length_insert|].
  exists (fun n => if decide (n = i) then j else if decide (n = j) then i else n).
  split.
  - intros a b. repeat case_decide; lia.
  - intros n. destruct (decide (n = j)) as [->|Hnj].
    + rewrite list_lookup_insert_eq by (by rewrite length_insert).
      case_decide; by subst.
    + rewrite list_lookup_insert_ne by done.
      destruct (decide (n = i)) as [->|Hni].
      * by rewrite list_lookup_insert_eq.
      * by rewrite list_lookup_insert_ne.
Qed.

Lemma shuffle_from_Permutation {A} i (arr : list A) tape :
  (shuffle_from i arr tape).1 ≡ₚ arr.
Proof.
  revert arr tape. induction i as [|i IH]; intros arr tape; [done|].
  cbn [shuffle_from]. destruct (draw tape (S i + 1)) as [j tape'].
  rewrite IH. apply swap_Permutation.
Qed.

Lemma shuffleArray_Permutation {A} (arr : list A) tape :
  (shuffleArray arr tape).1 ≡ₚ arr.
Proof. apply shuffle_from_Permutation. Qed.

Lemma perm_cube_wf cube : perm_cube cube → wf_cube cube.
Proof.
  intros [Hlen Hrows]. split; [done|].
  eapply Forall_impl; [exact Hrows|]. intros row [Hl Hcells]. split; [done|].
  eapply Forall_impl; [exact Hcells|]. intros cands Hp. split.
  - by rewrite Hp.
  - rewrite Hp. unfold digits. repeat constructor; lia.
Qed.

Lemma build_cube_row_fold ns row tape :
  ∃ new, (foldl (fun '(row, tape) (_ : nat) =>
                   let '(cands, tape') := shuffleArray digits tape in
                   (row ++ [cands], tape'))
                (row, tape) ns).1 = row ++ new ∧
         length new = length ns ∧ Forall (fun cands => cands ≡ₚ digits) new.
Proof.
  revert row tape. induction ns as [|n ns IH]; intros row tape.
  - exists []. by rewrite app_nil_r.
  - cbn [foldl].
    pose proof (shuffleArray_Permutation digits tape) as Hp.
    destruct (shuffleArray digits tape) as [cands tape'].
    destruct (IH (row ++ [cands]) tape') as (new & -> & Hlen & Hall).
    exists (cands :: new). rewrite <- app_assoc. split; [done|].
    split; [simpl; by rewrite Hlen|]. by constructor.
Qed.

Lemma build_cube_row_spec tape :
  length (build_cube_row tape).1 = 9 ∧
  Forall (fun cands => cands ≡ₚ digits) (build_cube_row tape).1.
Proof.
  unfold build_cube_row.
  destruct (build_cube_row_fold idx9 [] tape) as (new & -> & Hlen & Hall).
  done.
Qed.

Lemma buildCandidateCube_fold ns cube tape :
  ∃ new, (foldl (fun '(cube, tape) (_ : nat) =>
                   let '(row, tape') := build_cube_row tape in
                   (cube ++ [row], tape'))
                (cube, tape) ns).1 = cube ++ new ∧
         length new = length ns ∧
         Forall (fun row => length row = 9 ∧
                            Forall (fun cands => cands ≡ₚ digits) row) new.
Proof.
  revert cube tape. induction ns as [|n ns IH]; intros cube tape.
  - exists []. by rewrite app_nil_r.
  - cbn [foldl].
    pose proof (build_cube_row_spec tape) as Hrow.
    destruct (build_cube_row tape) as [row tape'].
    destruct (IH (cube ++ [row]) tape') as (new & -> & Hlen & Hall).
    exists (row :: new). rewrite <- app_assoc. split; [done|].
    split; [simpl; by rewrite Hlen|]. by constructor.
Qed.

Lemma buildCandidateCube_perm tape : perm_cube (buildCandidateCube tape).1.
Proof.
  unfold buildCandidateCube, perm_cube.
  destruct (buildCandidateCube_fold idx9 [] tape) as (new & -> & Hlen & Hall).
  done.
Qed.

(** ** Termination *)

Lemma length_filter_mono {A} (P Q : A → Prop)
    `{!∀ x, Decision (P x), !∀ x, Decision (Q x)} (l : list A) :
  (∀ y, y ∈ l → Q y → P y) → length (filter Q l) ≤ length (filter P l).
Proof.
  induction l as [|a l IH]; intros Himp; [done|].
  rewrite !filter_cons.
  assert (length (filter Q l) ≤ length (filter P l))
    by (apply IH; intros y Hy; apply Himp; by right).
  destruct (decide (Q a)) as [Hq|Hq].
  - rewrite decide_True by (apply Himp; [by left|done]). simpl. lia.
  - destruct (decide (P a)); simpl; lia.
Qed.

Lemma length_filter_strict {A} (P Q : A → Prop)
    `{!∀ x, Decision (P x), !∀ x, Decision (Q x)} (l : list A) x :
  (∀ y, y ∈ l → Q y → P y) → x ∈ l → P x → ¬ Q x →
  length (filter Q l) < length (filter P l).
Proof.
  induction l as [|a l IH]; intros Himp Hx HP HQ; [by apply elem_of_nil in Hx|].
  rewrite !filter_cons.
  assert (Himp' : ∀ y, y ∈ l → Q y → P y) by (intros y Hy; apply Himp; by right).
  pose proof (length_filter_mono P Q l Himp') as Hle.
  apply elem_of_cons in Hx as [<-|Hx].
  - rewrite decide_False, decide_True by done. simpl. lia.
  - specialize (IH Himp' Hx HP HQ).
    destruct (decide (Q a)) as [Hq|Hq].
    + rewrite decide_True by (apply Himp; [by left|done]). simpl. lia.
    + destruct (decide (P a)); simpl; lia.
Qed.

Lemma count_empty_le b : count_empty b ≤ 81.
Proof. unfold count_empty. etrans; [apply length_filter|]. done. Qed.

Lemma count_empty_place b r c num :
  r < 9 → c < 9 → get b r c = Some 0%Z → num ≠ 0%Z →
  count_empty (set_cell b r c num) < count_empty b.
Proof.
  intros Hr Hc Hz Hnum. unfold count_empty.
  apply length_filter_strict with (x := (r, c)); simpl.
  - intros [r' c'] _. simpl.
    destruct (decide ((r, c) = (r', c'))) as [[= <- <-]|Hne].
    + by rewrite Hz.
    + by rewrite get_set_cell_ne.
  - by apply elem_of_positions.
  - done.
  - rewrite get_set_cell_eq, Hz. simpl. congruence.
Qed.

Section LoopTerminates.
Variable rec : SolverState → option (bool * SolverState).
Variables (b : Board) (r c : nat) (cands : list Z).
Hypothesis rec_ok : ∀ s ok s', rec s = Some (ok, s') → returns_ok s ok s'.
Hypothesis rec_total :
  ∀ s, count_empty (st_board s) < count_empty b → is_Some (rec s).
Hypothesis Hr : r < 9.
Hypothesis Hc : c < 9.
Hypothesis Hz : get b r c = Some 0%Z.
Hypothesis Hnz : Forall (fun v => v ≠ 0%Z) cands.

Lemma try_candidates_terminates ks st :
  Forall (fun k => k < length cands) ks → st_board st = b →
  is_Some (try_candidates rec r c cands ks st).
Proof.
  intros Hks. revert st.
  induction Hks as [|k ks Hk Hks IH]; intros st Hb; simpl; [done|].
  destruct (lookup_lt_is_Some_2 cands k Hk) as [num Hnum]. rewrite Hnum.
  destruct (isValidPlacement _ _ _ _); [|by apply IH].
  rewrite Forall_lookup in Hnz. specialize (Hnz _ _ Hnum).
  destruct (rec_total (mkState (set_cell (st_board st) r c num) (st_backtracks st)))
    as [[[] s1] Hrec].
  { simpl. rewrite Hb. by apply count_empty_place. }
  - by rewrite Hrec.
  - rewrite Hrec. apply IH. simpl.
    apply rec_ok in Hrec as [Hrestore _ _ _]. simpl in Hrestore.
    rewrite (Hrestore eq_refl), Hb. by apply set_cell_undo.
Qed.
End LoopTerminates.

Lemma wf_cube_nonzero cube r c cands :
  wf_cube cube → r < 9 → c < 9 → cube_at cube r c = Some cands →
  length cands = 9 ∧ Forall (fun v => v ≠ 0%Z) cands.
Proof.
  intros Hcube Hr Hc Hat.
  destruct (wf_cube_at cube r c Hcube Hr Hc) as (cands' & Hat' & Hlen & Hdig).
  simplify_eq. split; [done|].
  eapply Forall_impl; [exact Hdig|]. simpl. lia.
Qed.

Lemma idx9_lt : Forall (fun k => k < 9) idx9.
Proof. unfold idx9. apply Forall_forall. intros k Hk. apply elem_of_seq in Hk. lia. Qed.

Lemma backtrack_terminates cube fuel st :
  wf_cube cube → count_empty (st_board st) < fuel →
  is_Some (backtrack fuel cube st).
Proof.
  intros Hcube. revert st.
  induction fuel as [|fuel IH]; intros st Hfuel; [lia|].
  rewrite backtrack_unfold.
  destruct (first_empty (st_board st)) as [[r c]|] eqn:Hfe; [|done].
  apply first_empty_Some in Hfe as (Hz & Hr & Hc).
  destruct (wf_cube_at cube r c Hcube Hr Hc) as (cands & Hat & Hlen & Hdig).
  rewrite Hat.
  destruct (wf_cube_nonzero cube r c cands Hcube Hr Hc Hat) as [_ Hnz].
  apply try_candidates_terminates with (b := st_board st); try done.
  - intros s ok s'. apply backtrack_returns_ok.
  - intros s Hs. apply IH. lia.
  - rewrite Hlen. apply idx9_lt.
Qed.

(** ** Completeness of the search *)

Lemma solution_cell s r c :
  is_solution s → r < 9 → c < 9 →
  ∃ v, get s r c = Some v ∧ (1 ≤ v ≤ 9)%Z ∧ isValidPlacement s r c v = true.
Proof.
  intros (Hwf & Hok & Hfull) Hr Hc.
  destruct (get_is_Some s r c Hwf Hr Hc) as [v Hv]. exists v.
  assert (v ≠ 0%Z) by (intros ->; by apply (Hfull r c)).
  destruct (Hok r c v Hr Hc Hv); done.
Qed.

Lemma solution_placement_valid b s r c v :
  extends b s → is_solution s → r < 9 → c < 9 → get s r c = Some v →
  isValidPlacement b r c v = true.
Proof.
  intros Hext Hsol Hr Hc Hv.
  destruct (solution_cell s r c Hsol Hr Hc) as (v' & Hv' & Hrange & Hvalid).
  simplify_eq. rewrite isValidPlacement_peers in Hvalid |- * by done.
  intros r' c' Hr' Hc' Hpeer Hget.
  apply (Hvalid r' c' Hr' Hc' Hpeer). apply Hext; [done|lia].
Qed.

Lemma extends_place b s r c v :
  extends b s → get s r c = Some v → extends (set_cell b r c v) s.
Proof.
  intros Hext Hv r' c' w Hw Hnz.
  destruct (decide ((r, c) = (r', c'))) as [[= <- <-]|Hne].
  - rewrite get_set_cell_eq in Hw. destruct (get b r c); by simplify_eq/=.
  - rewrite get_set_cell_ne in Hw by done. by apply Hext.
Qed.

Section LoopCompletes.
Variable rec : SolverState → option (bool * SolverState).
Variables (b sol : Board) (r c : nat) (cands : list Z) (v : Z).
Hypothesis rec_ok : ∀ s ok s', rec s = Some (ok, s') → returns_ok s ok s'.
Hypothesis rec_total :
  ∀ s, count_empty (st_board s) < count_empty b → is_Some (rec s).
Hypothesis rec_complete :
  ∀ s, count_empty (st_board s) < count_empty b → extends (st_board s) sol →
       ∃ s', rec s = Some (true, s').
Hypothesis Hr : r < 9.
Hypothesis Hc : c < 9.
Hypothesis Hz : get b r c = Some 0%Z.
Hypothesis Hnz : Forall (fun v => v ≠ 0%Z) cands.
Hypothesis Hext : extends b sol.
Hypothesis Hsol : is_solution sol.
Hypothesis Hv : get sol r c = Some v.

Lemma try_candidates_complete ks st :
  Forall (fun k => k < length cands) ks → st_board st = b →
  (∃ k, k ∈ ks ∧ cands !! k = Some v) →
  ∃ st', try_candidates rec r c cands ks st = Some (true, st').
Proof.
  intros Hks. revert st.
  induction Hks as [|k0 ks Hk0 Hks IH]; intros st Hb (k & Hin & Hk); simpl.
  { by apply elem_of_nil in Hin. }
  destruct (lookup_lt_is_Some_2 cands k0 Hk0) as [num Hnum]. rewrite Hnum.
  pose proof Hnz as Hnum0. rewrite Forall_lookup in Hnum0.
  specialize (Hnum0 _ _ Hnum).
  apply elem_of_cons in Hin as [->|Hin].
  - assert (num = v) as -> by congruence. rewrite Hb.
    rewrite (solution_placement_valid b sol r c v) by done.
    destruct (rec_complete (mkState (set_cell b r c v) (st_backtracks st)))
      as [s' ->]; simpl; eauto using extends_place.
    by apply count_empty_place.
  - destruct (isValidPlacement _ _ _ _); [|apply IH; eauto].
    destruct (rec_total (mkState (set_cell (st_board st) r c num) (st_backtracks st)))
      as [[[] s1] Hrec].
    { simpl. rewrite Hb. by apply count_empty_place. }
    + rewrite Hrec. eauto.
    + rewrite Hrec. apply IH; [|eauto]. simpl.
      apply rec_ok in Hrec as [Hrestore _ _ _]. simpl in Hrestore.
      rewrite (Hrestore eq_refl), Hb. by apply set_cell_undo.
Qed.
End LoopCompletes.

Lemma backtrack_complete cube sol fuel st :
  perm_cube cube → is_solution sol → extends (st_board st) sol →
  count_empty (st_board st) < fuel →
  ∃ st', backtrack fuel cube st = Some (true, st').
Proof.
  intros Hperm Hsol. revert st.
  induction fuel as [|fuel IH]; intros st Hext Hfuel; [lia|].
  rewrite backtrack_unfold.
  destruct (first_empty (st_board st)) as [[r c]|] eqn:Hfe; [|eauto].
  apply first_empty_Some in Hfe as (Hz & Hr & Hc).
  pose proof (perm_cube_wf cube Hperm) as Hcube.
  destruct (wf_cube_at cube r c Hcube Hr Hc) as (cands & Hat & Hlen & Hdig).
  rewrite Hat.
  destruct (wf_cube_nonzero cube r c cands Hcube Hr Hc Hat) as [_ Hnz].
  destruct (solution_cell sol r c Hsol Hr Hc) as (v & Hv & Hrange & _).
  assert (Hin : v ∈ cands).
  { destruct Hperm as [_ Hrows]. unfold cube_at in Hat.
    destruct (cube !! r) as [row|] eqn:Hrow; [|done].
    rewrite Forall_lookup in Hrows. destruct (Hrows _ _ Hrow) as [_ Hcells].
    rewrite Forall_lookup in Hcells. rewrite (Hcells _ _ Hat).
    unfold digits. assert (v ∈ seqZ 1 9) as Hs by (apply elem_of_seqZ; lia).
    exact Hs. }
  apply list_elem_of_lookup in Hin as [k Hk].
  apply try_candidates_complete with (b := st_board st) (sol := sol) (v := v);
    try done.
  - intros s ok s'. apply backtrack_returns_ok.
  - intros s Hs. apply backtrack_terminates; [done|lia].
  - intros s Hs Hexts. apply IH; [done|lia].
  - rewrite Hlen. apply idx9_lt.
  - exists k. split; [|done]. unfold idx9. apply elem_of_seq.
    apply lookup_lt_Some in Hk. lia.
Qed.

(** ** The solver as a whole *)

Lemma resolve_cube_wf cube tape : cube_ok cube → wf_cube (resolve_cube cube tape).1.
Proof.
  destruct cube as [cb|]; simpl; [done|].
  intros _. apply perm_cube_wf, buildCandidateCube_perm.
Qed.

Lemma solveBoardWithStats_Some fuel b cube tape t0 t1 stats b' tape' :
  solveBoardWithStats fuel b cube tape t0 t1 = Some (stats, b', tape') →
  ∃ st', backtrack fuel (resolve_cube cube tape).1 (mkState b 0)
           = Some (solved stats, st') ∧
         b' = st_board st' ∧ backtracks stats = st_backtracks st' ∧
         elapsedMs stats = (t1 - t0)%Q ∧ tape' = (resolve_cube cube tape).2.
Proof.
  unfold solveBoardWithStats.
  destruct (resolve_cube cube tape) as [cube' tp]. simpl.
  destruct (backtrack fuel cube' _) as [[ok st']|]; [|done].
  intros [= <- <- <-]. by exists st'.
Qed.

Lemma solveBoard_Some fuel b tape t0 t1 ok b' tape' :
  solveBoard fuel b tape t0 t1 = Some (ok, b', tape') →
  ∃ stats, solveBoardWithStats fuel b None tape t0 t1 = Some (stats, b', tape') ∧
           solved stats = ok.
Proof.
  unfold solveBoard.
  destruct (solveBoardWithStats _ _ _ _ _ _) as [[[stats b1] tp]|]; [|done].
  intros [= <- <- <-]. by exists stats.
Qed.

Lemma backtrack_no_conflict fuel cube st ok st' :
  wf_cube cube → no_conflict (st_board st) →
  backtrack fuel cube st = Some (ok, st') → no_conflict (st_board st').
Proof.
  intros Hcube. apply backtrack_invariant.
  intros b r c cands k num Hok Hfe Hat Hk Hvalid.
  apply first_empty_Some in Hfe as (Hz & Hr & Hc).
  destruct (wf_cube_at cube r c Hcube Hr Hc) as (cands' & Hat' & _ & Hdig).
  simplify_eq. rewrite Forall_lookup in Hdig.
  apply no_conflict_place; eauto.
Qed.

Lemma isBoardSolved_true b :
  isBoardSolved b = true ↔ isBoardComplete b = true ∧ validateBoard b = [].
Proof.
  unfold isBoardSolved. rewrite andb_true_iff, Nat.eqb_eq.
  by rewrite length_zero_iff_nil.
Qed.

(** The end-to-end scenario of the specification. *)
Example classic_puzzle_solves :
  solveBoardWithStats 82 classic_puzzle (Some ascending_cube) [] 0 1 =
  Some (mkStats true 4157 (1 - 0), classic_solution, []).
Proof. vm_compute. reflexivity. Qed.

(** C1, as stated, fails: a full board is reported solved without any
    check of its cells.  The board of 81 ones is 9x9 with values in [0,9];
    the solver returns [solved = true] and leaves it as it is, and
    [isBoardSolved] rejects it. *)
Lemma solved_flag_on_conflicting_board :
  wf_board all_ones ∧ in_range all_ones ∧
  solveBoardWithStats 82 all_ones (Some ascending_cube) [] 0 1 =
    Some (mkStats true 0 (1 - 0), all_ones, []) ∧
  solveBoard 82 all_ones [] 0 1 = Some (true, all_ones, []) ∧
  isBoardSolved all_ones = false.
Proof. repeat split; try compute_done; vm_compute; reflexivity. Qed.

(** C1 (amended): when the board handed to the solver has no conflict
    ([validateBoard] returns the empty list) and the cube, if one is passed,
    holds digits 1..9, a call that returns [solved = true] leaves a board
    with [isBoardSolved = true]; likewise for the [solveBoard] wrapper. *)
Theorem solved_board_is_solved fuel b tape t0 t1 :
  validateBoard b = [] →
  (∀ cube stats b' tape',
     cube_ok cube →
     solveBoardWithStats fuel b cube tape t0 t1 = Some (stats, b', tape') →
     solved stats = true → isBoardSolved b' = true) ∧
  (∀ b' tape',
     solveBoard fuel b tape t0 t1 = Some (true, b', tape') →
     isBoardSolved b' = true).
Proof.
  intros Hvalid.
  assert (Hmain : ∀ cube stats b' tape',
     cube_ok cube →
     solveBoardWithStats fuel b cube tape t0 t1 = Some (stats, b', tape') →
     solved stats = true → isBoardSolved b' = true).
  { intros cube stats b' tape' Hcube Hsolve Hok.
    apply solveBoardWithStats_Some in Hsolve as (st' & Hbt & -> & _).
    rewrite Hok in Hbt. apply isBoardSolved_true. split.
    - apply isBoardComplete_first_empty.
      by apply (ret_full _ _ _ (backtrack_returns_ok _ _ _ _ _ Hbt)).
    - apply validateBoard_nil.
      eapply backtrack_no_conflict; [by apply resolve_cube_wf| |exact Hbt].
      by apply validateBoard_nil. }
  split; [exact Hmain|].
  intros b' tape' Hsolve.
  apply solveBoard_Some in Hsolve as (stats & Hsolve & Hok).
  by apply (Hmain None stats b' tape').
Qed.

Lemma solved_board_is_solved_witness :
  validateBoard classic_puzzle = [] ∧ isBoardSolved classic_solution = true.
Proof.
  split; [reflexivity|].
  apply (proj1 (solved_board_is_solved 82 classic_puzzle [] 0 1 eq_refl)
           (Some ascending_cube) (mkStats true 4157 (1 - 0)) classic_solution []).
  - compute_done.
  - vm_compute. reflexivity.
  - reflexivity.
Defined.

(** More fuel never changes a result. *)
Lemma try_candidates_mono rec rec' r c cands ks st res :
  (∀ s y, rec s = Some y → rec' s = Some y) →
  try_candidates rec r c cands ks st = Some res →
  try_candidates rec' r c cands ks st = Some res.
Proof.
  intros Hrec. revert st. induction ks as [|k ks IH]; intros st; simpl; [done|].
  destruct (cands !! k) as [num|]; [|done].
  destruct (isValidPlacement _ _ _ _); [|by apply IH].
  destruct (rec _) as [[[] s1]|] eqn:Hr; [| |done]; rewrite (Hrec _ _ Hr);
    [done|by apply IH].
Qed.

Lemma backtrack_fuel_mono fuel fuel' cube st res :
  fuel ≤ fuel' → backtrack fuel cube st = Some res →
  backtrack fuel' cube st = Some res.
Proof.
  revert fuel' st res. induction fuel as [|fuel IH]; intros fuel' st res Hle;
    [done|].
  destruct fuel' as [|fuel']; [lia|]. rewrite !backtrack_unfold.
  destruct (first_empty (st_board st)) as [[r c]|]; [|done].
  destruct (cube_at cube r c) as [cands|]; [|done].
  apply try_candidates_mono. intros s y. apply IH. lia.
Qed.

(** C5: a call that returns [solved = false] leaves the board equal, cell
    for cell, to the board it was given. *)
Theorem failed_solve_restores_board fuel b cube tape t0 t1 stats b' tape' :
  solveBoardWithStats fuel b cube tape t0 t1 = Some (stats, b', tape') →
  solved stats = false →
  b' = b.
Proof.
  intros Hsolve Hok.
  apply solveBoardWithStats_Some in Hsolve as (st' & Hbt & -> & _).
  apply backtrack_returns_ok in Hbt as [Hrestore _ _ _]. by apply Hrestore.
Qed.

Lemma failed_solve_restores_board_witness :
  solveBoardWithStats 82 unsolvable_board (Some ascending_cube) [] 0 1 =
    Some (mkStats false 2 (1 - 0), unsolvable_board, []) ∧
  unsolvable_board = unsolvable_board.
Proof.
  assert (H : solveBoardWithStats 82 unsolvable_board (Some ascending_cube) [] 0 1 =
    Some (mkStats false 2 (1 - 0), unsolvable_board, []))
    by (vm_compute; reflexivity).
  split; [exact H|].
  exact (failed_solve_restores_board _ _ _ _ _ _ _ _ _ H eq_refl).
Defined.

(** C9: whatever the outcome, every cell that is non-zero before the call
    holds the same value after it, for [solveBoardWithStats] and for the
    [solveBoard] wrapper. *)
Theorem solve_keeps_filled_cells fuel b tape t0 t1 :
  (∀ cube stats b' tape',
     solveBoardWithStats fuel b cube tape t0 t1 = Some (stats, b', tape') →
     ∀ r c v, get b r c = Some v → v ≠ 0%Z → get b' r c = Some v) ∧
  (∀ ok b' tape',
     solveBoard fuel b tape t0 t1 = Some (ok, b', tape') →
     ∀ r c v, get b r c = Some v → v ≠ 0%Z → get b' r c = Some v).
Proof.
  assert (Hmain : ∀ cube stats b' tape',
     solveBoardWithStats fuel b cube tape t0 t1 = Some (stats, b', tape') →
     extends b b').
  { intros cube stats b' tape' Hsolve.
    apply solveBoardWithStats_Some in Hsolve as (st' & Hbt & -> & _).
    by apply backtrack_returns_ok in Hbt as [_ Hext _ _]. }
  split; [exact Hmain|].
  intros ok b' tape' Hsolve.
  apply solveBoard_Some in Hsolve as (stats & Hsolve & _). by eapply Hmain.
Qed.

Lemma solve_keeps_filled_cells_witness :
  get classic_puzzle 1 3 = Some 1%Z ∧ get classic_solution 1 3 = Some 1%Z.
Proof.
  split; [reflexivity|].
  apply (proj1 (solve_keeps_filled_cells 82 classic_puzzle [] 0 1)
           (Some ascending_cube) (mkStats true 4157 (1 - 0)) classic_solution []
           classic_puzzle_solves 1 3 1%Z); [reflexivity|lia].
Defined.

(** C10: on a board without an empty cell the solver returns at once with
    [solved = true] and [backtracks = 0] and the board as it was; nothing is
    asked of the filled cells, so this covers boards that break the Sudoku
    rules. *)
Theorem full_board_reported_solved fuel b cube tape t0 t1 :
  isBoardComplete b = true → 0 < fuel →
  solveBoardWithStats fuel b cube tape t0 t1 =
    Some (mkStats true 0 (t1 - t0), b, (resolve_cube cube tape).2).
Proof.
  intros Hfull Hfuel. unfold solveBoardWithStats.
  destruct (resolve_cube cube tape) as [cube' tape']. simpl.
  destruct fuel as [|fuel]; [lia|]. rewrite backtrack_unfold. simpl.
  apply isBoardComplete_first_empty in Hfull. by rewrite Hfull.
Qed.

Lemma full_board_reported_solved_witness :
  isBoardComplete all_ones = true ∧ isBoardSolved all_ones = false ∧
  solveBoardWithStats 1 all_ones None [] 0 1 =
    Some (mkStats true 0 (1 - 0), all_ones, (resolve_cube None []).2).
Proof.
  split; [reflexivity|]. split; [reflexivity|].
  apply (full_board_reported_solved 1 all_ones None [] 0 1); [reflexivity|lia].
Defined.

(** C7: the solver terminates.  The number of empty cells bounds the depth
    of the recursion: any fuel above it (82 always is) yields a result, more
    fuel yields the same result, and every placement the search makes before
    it recurses lowers the number of empty cells. *)
Theorem solver_terminates b cube tape t0 t1 :
  cube_ok cube →
  count_empty b < 82 ∧
  (∀ fuel, count_empty b < fuel →
     ∃ res, solveBoardWithStats fuel b cube tape t0 t1 = Some res ∧
            ∀ fuel', fuel ≤ fuel' →
                     solveBoardWithStats fuel' b cube tape t0 t1 = Some res) ∧
  (∀ b0 r c cands k num,
     first_empty b0 = Some (r, c) →
     cube_at (resolve_cube cube tape).1 r c = Some cands →
     cands !! k = Some num →
     count_empty (set_cell b0 r c num) < count_empty b0).
Proof.
  intros Hcube. pose proof (resolve_cube_wf cube tape Hcube) as Hwf.
  split; [pose proof (count_empty_le b); lia|]. split.
  - intros fuel Hfuel. unfold solveBoardWithStats.
    destruct (resolve_cube cube tape) as [cube' tape']. simpl in Hwf.
    destruct (backtrack_terminates cube' fuel (mkState b 0) Hwf Hfuel)
      as [[ok st'] Hbt].
    rewrite Hbt. eexists. split; [done|].
    intros fuel' Hle. by rewrite (backtrack_fuel_mono _ _ _ _ _ Hle Hbt).
  - intros b0 r c cands k num Hfe Hat Hk.
    apply first_empty_Some in Hfe as (Hz & Hr & Hc).
    destruct (wf_cube_nonzero _ r c cands Hwf Hr Hc Hat) as [_ Hnz].
    rewrite Forall_lookup in Hnz. apply count_empty_place; eauto.
Qed.

Lemma solver_terminates_witness :
  cube_ok (Some ascending_cube) ∧
  ∃ res, solveBoardWithStats 82 classic_puzzle (Some ascending_cube) [] 0 1 =
           Some res.
Proof.
  assert (Hcube : cube_ok (Some ascending_cube)) by compute_done.
  split; [exact Hcube|].
  destruct (solver_terminates classic_puzzle (Some ascending_cube) [] 0 1 Hcube)
    as (Hle & Hrun & _).
  destruct (Hrun 82 Hle) as (res & Hres & _).
  by exists res.
Defined.

(** The hypothesis on the cube cannot be dropped: with a candidate 0 the
    search refills the last empty cell of a grid with 0 and recurses on the
    same board, whatever the fuel. *)
Lemma try_candidates_stuck rec r c cands k ks st num :
  cands !! k = Some num → isValidPlacement (st_board st) r c num = true →
  rec (mkState (set_cell (st_board st) r c num) (st_backtracks st)) = None →
  try_candidates rec r c cands (k :: ks) st = None.
Proof. intros Hk Hv Hrec. simpl. by rewrite Hk, Hv, Hrec. Qed.

Remark zero_candidate_never_returns fuel n :
  backtrack fuel zero_cube (mkState one_cell_left n) = None.
Proof.
  revert n. induction fuel as [|fuel IH]; intros n; [done|].
  rewrite backtrack_unfold.
  assert (first_empty one_cell_left = Some (8, 8)) as Hfe by reflexivity.
  assert (cube_at zero_cube 8 8 = Some (replicate 9 0%Z)) as Hat by reflexivity.
  cbn [st_board]. rewrite Hfe, Hat.
  apply try_candidates_stuck with (num := 0%Z); [reflexivity..|].
  apply IH.
Qed.

(** C8: the statistics of a solve call.  The counter starts at 0 and only
    grows; the elapsed time is the difference of two readings of a clock
    that does not run backwards. *)
Theorem stats_nonnegative fuel b cube tape t0 t1 :
  cube_ok cube → count_empty b < fuel → (t0 <= t1)%Q →
  ∃ stats b' tape',
    solveBoardWithStats fuel b cube tape t0 t1 = Some (stats, b', tape') ∧
    (0 ≤ backtracks stats)%Z ∧ (0 <= elapsedMs stats)%Q.
Proof.
  intros Hcube Hfuel Hclock.
  pose proof (resolve_cube_wf cube tape Hcube) as Hwf.
  destruct (backtrack_terminates _ fuel (mkState b 0) Hwf Hfuel) as [[ok st'] Hbt].
  exists (mkStats ok (st_backtracks st') (t1 - t0)), (st_board st'),
    (resolve_cube cube tape).2.
  split; [|split].
  - unfold solveBoardWithStats.
    destruct (resolve_cube cube tape) as [cube' tape']. simpl in *.
    by rewrite Hbt.
  - by apply backtrack_returns_ok in Hbt as [_ _ Hcount _].
  - simpl. by apply Qle_minus_iff in Hclock.
Qed.

Lemma stats_nonnegative_witness :
  ∃ stats b' tape',
    solveBoardWithStats 82 unsolvable_board None [] 5 (17 # 2) =
      Some (stats, b', tape') ∧
    (0 ≤ backtracks stats)%Z ∧ (0 <= elapsedMs stats)%Q.
Proof.
  apply (stats_nonnegative 82 unsolvable_board None [] 5 (17 # 2)).
  - exact I.
  - pose proof (count_empty_le unsolvable_board). lia.
  - unfold Qle. simpl. lia.
Defined.

(** C6, as stated, fails: without a cube the candidates are not tried in
    ascending order.  With the tape whose draws are all 0 the cube built for
    the call lists 2,3,...,9,1 at cell (0,0), and on the empty board the
    solver fills that cell with 2, where the ascending cube gives 1. *)
Lemma default_order_not_ascending :
  cube_at (resolve_cube None []).1 0 0 = Some [2; 3; 4; 5; 6; 7; 8; 9; 1]%Z ∧
  cube_at ascending_cube 0 0 = Some digits ∧
  ∃ s1 b1 s2 b2,
    solveBoardWithStats 82 empty_board None [] 0 1 = Some (s1, b1, []) ∧
    solveBoardWithStats 82 empty_board (Some ascending_cube) [] 0 1
      = Some (s2, b2, []) ∧
    get b1 0 0 = Some 2%Z ∧ get b2 0 0 = Some 1%Z.
Proof.
  split; [reflexivity|]. split; [reflexivity|].
  destruct (solveBoardWithStats 82 empty_board None [] 0 1)
    as [[[s1 b1] tp1]|] eqn:H1; [|by vm_compute in H1].
  destruct (solveBoardWithStats 82 empty_board (Some ascending_cube) [] 0 1)
    as [[[s2 b2] tp2]|] eqn:H2; [|by vm_compute in H2].
  vm_compute in H1, H2. injection H1 as <- <- <-. injection H2 as <- <- <-.
  eexists _, _, _, _. repeat split; reflexivity.
Qed.

(** The counter a call starts from has no bearing on its flag and board. *)
Lemma try_candidates_counter rec r c cands ks :
  (∀ b n m, flag_and_board <$> rec (mkState b n) =
            flag_and_board <$> rec (mkState b m)) →
  ∀ b n m,
    flag_and_board <$> try_candidates rec r c cands ks (mkState b n) =
    flag_and_board <$> try_candidates rec r c cands ks (mkState b m).
Proof.
  intros Hrec. induction ks as [|k ks IH]; intros b n m; [done|].
  cbn [try_candidates st_board st_backtracks].
  destruct (cands !! k) as [num|]; [|done].
  destruct (isValidPlacement b r c num); [|by apply IH].
  pose proof (Hrec (set_cell b r c num) n m) as Hsame.
  destruct (rec (mkState (set_cell b r c num) n)) as [[ok1 [b1 n1]]|];
    destruct (rec (mkState (set_cell b r c num) m)) as [[ok2 [b2 n2]]|];
    try done.
  unfold flag_and_board in Hsame. simpl in Hsame.
  injection Hsame as -> ->. destruct ok2; [done|]. apply IH.
Qed.

Lemma backtrack_counter fuel cube : ∀ b n m,
  flag_and_board <$> backtrack fuel cube (mkState b n) =
  flag_and_board <$> backtrack fuel cube (mkState b m).
Proof.
  induction fuel as [|fuel IH]; intros b n m; [done|].
  rewrite !backtrack_unfold. cbn [st_board].
  destruct (first_empty b) as [[r c]|]; [|done].
  destruct (cube_at cube r c) as [cands|]; [|done].
  by apply try_candidates_counter.
Qed.

(** The loop over the indices [a, a+n) of the candidate list: a success
    comes from the first index whose candidate is accepted and whose
    recursive call succeeds, every earlier candidate having been rejected
    or tried and undone; a failure means that this happened to all. *)
Section LoopOrder.
Variable rec : SolverState → option (bool * SolverState).
Variables (b : Board) (r c : nat) (cands : list Z).
Hypothesis rec_ok : ∀ s ok s', rec s = Some (ok, s') → returns_ok s ok s'.
Hypothesis Hz : get b r c = Some 0%Z.

Lemma try_candidates_order n : ∀ a st ok st',
  st_board st = b →
  try_candidates rec r c cands (seq a n) st = Some (ok, st') →
  (ok = true →
     ∃ k v cnt,
       a ≤ k < a + n ∧ cands !! k = Some v ∧
       isValidPlacement b r c v = true ∧
       rec (mkState (set_cell b r c v) cnt) = Some (true, st') ∧
       ∀ j w, a ≤ j < k → cands !! j = Some w → given_up rec b r c w) ∧
  (ok = false →
     ∀ j w, a ≤ j < a + n → cands !! j = Some w → given_up rec b r c w).
Proof.
  induction n as [|n IH]; intros a st ok st' Hb.
  { simpl. intros [= <- <-]. split; [done|]. intros _ j w Hj. lia. }
  cbn [seq try_candidates]. rewrite Hb.
  destruct (cands !! a) as [num|] eqn:Hnum; [|done].
  destruct (isValidPlacement b r c num) eqn:Hvalid.
  - destruct (rec _) as [[[] s1]|] eqn:Hrec; [| |done].
    + intros [= <- <-]. split; [|done]. intros _.
      exists a, num, (st_backtracks st).
      split; [lia|]. split; [done|]. split; [done|]. split; [done|].
      intros j w Hj. lia.
    + intros Hloop.
      pose proof (rec_ok _ _ _ Hrec) as [Hrestore _ _ _]. simpl in Hrestore.
      apply IH in Hloop as [Htrue Hfalse];
        [|simpl; rewrite (Hrestore eq_refl); by apply set_cell_undo].
      assert (Hfirst : ∀ j w, a ≤ j < S a → cands !! j = Some w → given_up rec b r c w).
      { intros j w Hj Hw. assert (j = a) as -> by lia.
        assert (w = num) as -> by congruence. right. eauto. }
      split.
      * intros Hok. destruct (Htrue Hok) as (k & v & cnt & Hk & Hv & Hval & Hr & Hbefore).
        exists k, v, cnt. split; [lia|]. split; [done|]. split; [done|].
        split; [done|]. intros j w Hj Hw.
        destruct (decide (j = a)) as [->|]; [apply (Hfirst a); [lia|done]|].
        apply (Hbefore j); [lia|done].
      * intros Hok j w Hj Hw.
        destruct (decide (j = a)) as [->|]; [apply (Hfirst a); [lia|done]|].
        apply (Hfalse Hok j); [lia|done].
  - intros Hloop. apply IH in Hloop as [Htrue Hfalse]; [|done].
    assert (Hfirst : ∀ w, cands !! a = Some w → given_up rec b r c w).
    { intros w Hw. assert (w = num) as -> by congruence. by left. }
    split.
    + intros Hok. destruct (Htrue Hok) as (k & v & cnt & Hk & Hv & Hval & Hr & Hbefore).
      exists k, v, cnt. split; [lia|]. split; [done|]. split; [done|].
      split; [done|]. intros j w Hj Hw.
      destruct (decide (j = a)) as [->|]; [by apply Hfirst|].
      apply (Hbefore j); [lia|done].
    + intros Hok j w Hj Hw.
      destruct (decide (j = a)) as [->|]; [by apply Hfirst|].
      apply (Hfalse Hok j); [lia|done].
Qed.
End LoopOrder.

(** A recursive call seen from outside: the same board solved by a call
    without a cube on the same draws gives the same flag and board. *)
Lemma default_solve_of_backtrack fuel' fuel tape b cnt ok s' t0 t1 :
  backtrack fuel' (buildCandidateCube tape).1 (mkState b cnt) = Some (ok, s') →
  fuel' ≤ fuel →
  ∃ stats tape',
    solveBoardWithStats fuel b None tape t0 t1
      = Some (stats, st_board s', tape') ∧
    solved stats = ok.
Proof.
  intros Hbt Hle.
  pose proof (backtrack_counter fuel' (buildCandidateCube tape).1 b 0 cnt) as Hc.
  rewrite Hbt in Hc.
  destruct (backtrack fuel' _ (mkState b 0)) as [[ok0 s0]|] eqn:Hbt0; [|done].
  unfold flag_and_board in Hc. simpl in Hc. injection Hc as -> Hboard.
  apply (backtrack_fuel_mono fuel' fuel) in Hbt0; [|done].
  unfold solveBoardWithStats, resolve_cube.
  destruct (buildCandidateCube tape) as [cube tape1]. simpl in *.
  rewrite Hbt0, Hboard. by eexists _, _.
Qed.

(** C6 (amended): without a cube the solver builds one with
    [buildCandidateCube]; the candidates of every cell are a shuffle of
    1..9, each digit once, in the order the draws of [Math.random] give, and
    the search runs as if that cube had been passed.  At the first empty
    cell [(r, c)] the candidates are tried in the order of that list: a
    solved board holds there the first candidate of the list that
    [isValidPlacement] accepts and with which the rest of the board can be
    solved, every earlier candidate of the list having been rejected or
    placed, found to fail and undone; a failed solve has gone through all
    nine that way. *)
Theorem default_cube_is_shuffled tape r c :
  r < 9 → c < 9 →
  resolve_cube None tape = buildCandidateCube tape ∧
  (∃ cands, cube_at (resolve_cube None tape).1 r c = Some cands ∧
            cands ≡ₚ digits) ∧
  (∀ fuel b t0 t1,
     fst <$> solveBoardWithStats fuel b None tape t0 t1 =
     fst <$> solveBoardWithStats fuel b (Some (buildCandidateCube tape).1)
               tape t0 t1) ∧
  (∀ fuel b t0 t1 stats b' tape',
     solveBoardWithStats fuel b None tape t0 t1 = Some (stats, b', tape') →
     first_empty b = Some (r, c) →
     ∃ cands,
       cube_at (buildCandidateCube tape).1 r c = Some cands ∧
       let fails w :=
         isValidPlacement b r c w = false ∨
         ∃ s b2 t, solveBoardWithStats fuel (set_cell b r c w) None tape t0 t1
                     = Some (s, b2, t) ∧ solved s = false in
       (solved stats = true →
          ∃ k v, k < 9 ∧ cands !! k = Some v ∧ get b' r c = Some v ∧
                 isValidPlacement b r c v = true ∧
                 (∃ s t, solveBoardWithStats fuel (set_cell b r c v) None
                           tape t0 t1 = Some (s, b', t) ∧ solved s = true) ∧
                 ∀ j w, j < k → cands !! j = Some w → fails w) ∧
       (solved stats = false →
          ∀ j w, j < 9 → cands !! j = Some w → fails w)).
Proof.
  intros Hr Hc. split; [done|]. split; [|split].
  - simpl. pose proof (buildCandidateCube_perm tape) as Hperm.
    destruct (wf_cube_at _ r c (perm_cube_wf _ Hperm) Hr Hc)
      as (cands & Hat & _ & _).
    exists cands. split; [done|].
    destruct Hperm as [_ Hrows]. unfold cube_at in Hat.
    destruct (_ !! r) as [row|] eqn:Hrow; [|done].
    rewrite Forall_lookup in Hrows. destruct (Hrows _ _ Hrow) as [_ Hcells].
    rewrite Forall_lookup in Hcells. eauto.
  - intros fuel b t0 t1. unfold solveBoardWithStats, resolve_cube.
    destruct (buildCandidateCube tape) as [cube tape']. simpl.
    by destruct (backtrack fuel cube _) as [[ok st']|].
  - intros fuel b t0 t1 stats b' tape' Hsolve Hfe.
    apply solveBoardWithStats_Some in Hsolve as (st' & Hbt & -> & _).
    change (resolve_cube None tape) with (buildCandidateCube tape) in Hbt.
    pose proof (perm_cube_wf _ (buildCandidateCube_perm tape)) as Hwf.
    destruct (wf_cube_at _ r c Hwf Hr Hc) as (cands & Hat & Hlen & _).
    destruct (wf_cube_nonzero _ r c cands Hwf Hr Hc Hat) as [_ Hnz].
    exists cands. split; [done|].
    destruct fuel as [|fuel]; [done|].
    rewrite backtrack_unfold in Hbt. cbn [st_board] in Hbt.
    rewrite Hfe, Hat in Hbt.
    pose proof (first_empty_Some _ _ _ Hfe) as (Hz & _ & _).
    apply (try_candidates_order (backtrack fuel (buildCandidateCube tape).1)
             b r c cands) in Hbt as [Htrue Hfalse];
      [|intros s ok s'; apply backtrack_returns_ok|done|done].
    assert (Hfails : ∀ w,
              given_up (backtrack fuel (buildCandidateCube tape).1) b r c w →
              isValidPlacement b r c w = false ∨
              ∃ s b2 t,
                solveBoardWithStats (S fuel) (set_cell b r c w) None tape t0 t1
                  = Some (s, b2, t) ∧ solved s = false).
    { intros w [Hinv|(cnt & s' & Hrec)]; [by left|right].
      destruct (default_solve_of_backtrack fuel (S fuel) tape _ cnt false s'
                  t0 t1 Hrec) as (s & t & Hs & Hflag); [lia|].
      by exists s, (st_board s'), t. }
    split.
    + intros Hok.
      destruct (Htrue Hok) as (k & v & cnt & Hk & Hv & Hvalid & Hrec & Hbefore).
      exists k, v. split; [lia|]. split; [done|]. split; [|split; [done|split]].
      * pose proof (backtrack_returns_ok _ _ _ _ _ Hrec) as [_ Hext _ _].
        apply Hext; simpl.
        -- by rewrite get_set_cell_eq, Hz.
        -- rewrite Forall_lookup in Hnz. by apply (Hnz k).
      * destruct (default_solve_of_backtrack fuel (S fuel) tape _ cnt true st'
                    t0 t1 Hrec) as (s & t & Hs & Hflag); [lia|].
        by exists s, t.
      * intros j w Hj Hw. apply Hfails, (Hbefore j); [lia|done].
    + intros Hok j w Hj Hw. apply Hfails, (Hfalse Hok j); [lia|done].
Qed.

Lemma default_cube_is_shuffled_witness :
  ∃ stats b' tape',
    solveBoardWithStats 82 empty_board None [] 0 1 = Some (stats, b', tape') ∧
    ∃ cands k v,
      cube_at (buildCandidateCube []).1 0 0 = Some cands ∧
      k < 9 ∧ cands !! k = Some v ∧ get b' 0 0 = Some v.
Proof.
  destruct (solveBoardWithStats 82 empty_board None [] 0 1)
    as [[[stats b'] tape']|] eqn:Hrun; [|by vm_compute in Hrun].
  exists stats, b', tape'. split; [done|].
  assert (Hok : solved stats = true).
  { pose proof Hrun as Hcomp. vm_compute in Hcomp.
    by injection Hcomp as <- _ _. }
  destruct (default_cube_is_shuffled [] 0 0 ltac:(lia) ltac:(lia))
    as (_ & _ & _ & Horder).
  destruct (Horder 82 empty_board 0%Q 1%Q stats b' tape' Hrun eq_refl)
    as (cands & Hat & Htrue & _).
  destruct (Htrue Hok) as (k & v & Hk & Hv & Hget & _).
  exists cands, k, v.
  split; [exact Hat|]. split; [exact Hk|]. split; [exact Hv|exact Hget].
Defined.

(** ** [validateBoard] *)

Lemma positions_row_major r c :
  r < 9 → c < 9 → positions !! (9 * r + c) = Some (r, c).
Proof.
  intros Hr Hc.
  do 9 (destruct r as [|r];
        [do 9 (destruct c as [|c]; [reflexivity|]); lia|]).
  lia.
Qed.

(** C4: [validateBoard] returns, in row-major order and each once, the
    positions of the cells that are non-zero and either outside 1..9 or
    rejected by [isValidPlacement]; two equal non-zero values in one row are
    both reported. *)
Theorem validateBoard_reports_conflicts b :
  validateBoard b = List.filter (conflicting b) positions ∧
  (∀ r c, r < 9 → c < 9 → positions !! (9 * r + c) = Some (r, c)) ∧
  NoDup (validateBoard b) ∧
  (∀ r c1 c2 v,
     r < 9 → c1 < 9 → c2 < 9 → c1 ≠ c2 → v ≠ 0%Z →
     get b r c1 = Some v → get b r c2 = Some v →
     In (r, c1) (validateBoard b) ∧ In (r, c2) (validateBoard b)).
Proof.
  split; [apply validateBoard_filter|].
  split; [apply positions_row_major|]. split.
  - rewrite validateBoard_filter.
    apply NoDup_ListNoDup, List.NoDup_filter, NoDup_ListNoDup, NoDup_positions.
  - assert (Hone : ∀ r c c' v, r < 9 → c < 9 → c' < 9 → c ≠ c' → v ≠ 0%Z →
              get b r c = Some v → get b r c' = Some v →
              In (r, c) (validateBoard b)).
    { intros r c c' v Hr Hc Hc' Hne Hnz Hget Hget'.
      apply elem_of_validateBoard. split; [done|]. split; [done|].
      unfold conflicting. simpl. rewrite Hget.
      apply andb_true_iff. split; [by apply negb_true_iff, Z.eqb_neq|].
      destruct (isValidPlacement b r c v) eqn:Hvalid; [|by rewrite orb_true_r].
      exfalso. rewrite isValidPlacement_peers in Hvalid by done.
      apply (Hvalid r c'); [done..| |done]. unfold peer. lia. }
    intros r c1 c2 v Hr Hc1 Hc2 Hne Hnz Hg1 Hg2. split; eauto.
Qed.

Lemma validateBoard_reports_conflicts_witness :
  validateBoard row_clash = [(0, 0); (0, 4)] ∧
  In (0, 0) (validateBoard row_clash) ∧ In (0, 4) (validateBoard row_clash).
Proof.
  split; [reflexivity|].
  apply (proj2 (proj2 (proj2 (validateBoard_reports_conflicts row_clash)))
           0 0 4 5%Z); (lia || reflexivity).
Defined.

(** ** Finished grids *)

Lemma row_is_unit r : r < 9 → is_unit (row_cells r).
Proof.
  intros Hr. do 9 (destruct r as [|r]; [compute_done|]). lia.
Qed.

Lemma col_is_unit c : c < 9 → is_unit (col_cells c).
Proof.
  intros Hc. do 9 (destruct c as [|c]; [compute_done|]). lia.
Qed.

Lemma box_is_unit br bc : br < 3 → bc < 3 → is_unit (box_cells br bc).
Proof.
  intros Hr Hc.
  do 3 (destruct br as [|br];
        [do 3 (destruct bc as [|bc]; [compute_done|]); lia|]).
  lia.
Qed.

Lemma digit_in_digits v : (1 ≤ v ≤ 9)%Z → v ∈ digits.
Proof.
  intros Hv. assert (v ∈ seqZ 1 9) as Hs by (apply elem_of_seqZ; lia).
  exact Hs.
Qed.

Lemma unit_each_digit_once b cells :
  wf_board b → no_conflict b → isBoardComplete b = true → is_unit cells →
  each_digit_once b cells.
Proof.
  intros Hwf Hok Hfull (Hlen & Hnd & Hin & Hpeer).
  rewrite isBoardComplete_true in Hfull.
  rewrite Forall_forall in Hin, Hpeer.
  assert (Hcell : ∀ p, p ∈ cells →
            ∃ v, get b p.1 p.2 = Some v ∧ (1 ≤ v ≤ 9)%Z ∧
                 isValidPlacement b p.1 p.2 v = true).
  { intros [r c] Hp. destruct (Hin _ Hp) as [Hr Hc]. simpl in *.
    destruct (get_is_Some b r c Hwf Hr Hc) as [v Hv]. exists v.
    assert (v ≠ 0%Z) by (intros ->; by apply (Hfull r c)).
    destruct (Hok r c v Hr Hc Hv); done. }
  unfold each_digit_once, unit_values.
  apply submseteq_length_Permutation.
  - apply NoDup_submseteq.
    + apply NoDup_fmap_2_strong; [|done].
      intros p q Hp Hq Heq. destruct (decide (p = q)) as [|Hne]; [done|].
      exfalso. destruct (Hcell p Hp) as (v & Hv & _ & Hvalid).
      destruct (Hin _ Hp) as [Hr Hc]. destruct (Hin _ Hq) as [Hr' Hc'].
      rewrite isValidPlacement_peers in Hvalid by done.
      apply (Hvalid q.1 q.2 Hr' Hc').
      * specialize (Hpeer p Hp). rewrite Forall_forall in Hpeer.
        by apply Hpeer.
      * by rewrite <- Heq.
    + intros x Hx. apply list_elem_of_fmap in Hx as (p & -> & Hp).
      destruct (Hcell p Hp) as (v & -> & Hrange & _).
      apply list_elem_of_fmap. exists v. split; [done|].
      by apply digit_in_digits.
  - rewrite !length_fmap, Hlen. done.
Qed.

(** C3: a 9x9 board without an empty cell on which [validateBoard] finds
    no conflict is a valid finished Sudoku: every row, every column and
    every 3x3 box holds each digit 1..9 exactly once. *)
Theorem conflict_free_full_board_is_valid b :
  wf_board b → validateBoard b = [] → isBoardComplete b = true →
  valid_solution b.
Proof.
  intros Hwf Hvalid Hfull. apply validateBoard_nil in Hvalid.
  split; [|split].
  - intros r Hr. by apply unit_each_digit_once, row_is_unit.
  - intros c Hc. by apply unit_each_digit_once, col_is_unit.
  - intros br bc Hbr Hbc. by apply unit_each_digit_once, box_is_unit.
Qed.

Lemma conflict_free_full_board_is_valid_witness :
  wf_board classic_solution ∧ validateBoard classic_solution = [] ∧
  isBoardComplete classic_solution = true ∧ valid_solution classic_solution.
Proof.
  assert (Hwf : wf_board classic_solution) by compute_done.
  split; [exact Hwf|]. split; [reflexivity|]. split; [reflexivity|].
  exact (conflict_free_full_board_is_valid classic_solution Hwf eq_refl eq_refl).
Defined.

(** ** The puzzle generator *)

Lemma classic_solution_is_solution : is_solution classic_solution.
Proof.
  split; [compute_done|]. split.
  - by apply validateBoard_nil.
  - by apply isBoardComplete_true.
Qed.

Lemma get_empty_board r c v : get empty_board r c = Some v → v = 0%Z.
Proof.
  unfold get, empty_board.
  destruct (replicate 9 (replicate 9 0%Z) !! r) as [row|] eqn:Hrow; [|done].
  apply lookup_replicate in Hrow as [-> _].
  intros Hc. by apply lookup_replicate in Hc as [-> _].
Qed.

Lemma extends_empty_board s : extends empty_board s.
Proof. intros r c v Hv Hnz. by apply get_empty_board in Hv. Qed.

(** The first step of the generator always succeeds, with a finished valid
    grid. *)
Lemma generateFullSolution_solved fuel tape t0 t1 :
  82 ≤ fuel →
  ∃ sol stats tape',
    generateFullSolution fuel tape t0 t1 = Some (sol, stats, tape') ∧
    solved stats = true ∧ is_solution sol.
Proof.
  intros Hfuel. unfold generateFullSolution, solveBoardWithStats.
  pose proof (buildCandidateCube_perm tape) as Hperm.
  destruct (buildCandidateCube tape) as [cube tape']. simpl in *.
  destruct (backtrack_complete cube classic_solution fuel (mkState empty_board 0))
    as [st' Hbt].
  { done. }
  { apply classic_solution_is_solution. }
  { apply extends_empty_board. }
  { simpl. pose proof (count_empty_le empty_board). lia. }
  rewrite Hbt. eexists _, _, _. split; [done|]. split; [done|].
  pose proof (backtrack_returns_ok _ _ _ _ _ Hbt) as [_ _ _ Hfull].
  split; [|split].
  - eapply backtrack_wf; [|exact Hbt]. simpl. compute_done.
  - eapply backtrack_no_conflict; [by apply perm_cube_wf| |exact Hbt].
    simpl. by apply validateBoard_nil.
  - apply first_empty_None. by apply Hfull.
Qed.

Lemma remove_cells_from toRemove (shuffled : list Pos) p k m :
  (0 ≤ toRemove)%Z → k + m = length shuffled →
  foldl (fun p i =>
           if (Z.of_nat i <? toRemove)%Z then
             match shuffled !! i with
             | Some (r, c) => set_cell p r c 0
             | None => p
             end
           else p) p (seq k m) =
  foldl zero_cell p (take (Z.to_nat toRemove - k) (drop k shuffled)).
Proof.
  intros Hpos. revert k p. induction m as [|m IH]; intros k p Hlen.
  - rewrite drop_ge by lia. by rewrite take_nil.
  - cbn [seq foldl].
    destruct (lookup_lt_is_Some_2 shuffled k) as [[r c] Hk]; [lia|].
    rewrite Hk, (drop_S _ _ _ Hk), IH by lia.
    destruct (Z.ltb_spec (Z.of_nat k) toRemove).
    + replace (Z.to_nat toRemove - k) with (S (Z.to_nat toRemove - S k)) by lia.
      done.
    + replace (Z.to_nat toRemove - k) with 0 by lia.
      replace (Z.to_nat toRemove - S k) with 0 by lia. done.
Qed.

Lemma remove_cells_take toRemove (shuffled : list Pos) p :
  (0 ≤ toRemove)%Z →
  remove_cells toRemove shuffled p =
  foldl zero_cell p (take (Z.to_nat toRemove) shuffled).
Proof.
  intros Hpos. unfold remove_cells.
  rewrite (remove_cells_from toRemove shuffled p 0 (length shuffled)) by done.
  by rewrite Nat.sub_0_r.
Qed.

Lemma get_zero_cells (l : list Pos) p r c :
  get (foldl zero_cell p l) r c =
  if decide ((r, c) ∈ l) then (fun _ => 0%Z) <$> get p r c else get p r c.
Proof.
  revert p. induction l as [|[r' c'] l IH]; intros p.
  - rewrite decide_False; [done|]. apply not_elem_of_nil.
  - cbn [foldl]. rewrite IH. unfold zero_cell. simpl.
    destruct (decide ((r', c') = (r, c))) as [[= -> ->]|Hne].
    + rewrite get_set_cell_eq, (decide_True (P := (r, c) ∈ (r, c) :: l))
        by by left.
      case_decide; [|done]. by destruct (get p r c).
    + rewrite get_set_cell_ne by done.
      destruct (decide ((r, c) ∈ l)) as [Hin|Hnin].
      * rewrite decide_True; [done|]. by right.
      * rewrite decide_False; [done|]. intros Hin.
        apply elem_of_cons in Hin as [?|?]; congruence.
Qed.

Lemma length_filter_none {A} (P : A → Prop) `{!∀ x, Decision (P x)} l :
  (∀ x, x ∈ l → ¬ P x) → length (filter P l) = 0.
Proof.
  induction l as [|a l IH]; intros Hall; [done|].
  rewrite filter_cons, decide_False by (apply Hall; by left).
  apply IH. intros x Hx. apply Hall. by right.
Qed.

Lemma length_filter_all {A} (P : A → Prop) `{!∀ x, Decision (P x)} l :
  (∀ x, x ∈ l → P x) → length (filter P l) = length l.
Proof.
  induction l as [|a l IH]; intros Hall; [done|].
  rewrite filter_cons, decide_True by (apply Hall; by left). simpl.
  f_equal. apply IH. intros x Hx. apply Hall. by right.
Qed.

(** Zeroing the first [n] of the shuffled positions of a finished grid
    leaves [81 - n] clues. *)
Lemma count_clues_zero_cells sol (shuffled : list Pos) n :
  is_solution sol → shuffled ≡ₚ positions → n ≤ 81 →
  count_clues (foldl zero_cell sol (take n shuffled)) = 81 - n.
Proof.
  intros (Hwf & _ & Hfull) Hperm Hn. unfold count_clues.
  assert (Hlen : length shuffled = 81) by by rewrite Hperm.
  assert (Hnd : NoDup shuffled) by (rewrite Hperm; apply NoDup_positions).
  rewrite <- (take_drop n shuffled) in Hnd.
  apply NoDup_app in Hnd as (_ & Hdisj & _).
  set (P := is_clue (foldl zero_cell sol (take n shuffled))).
  assert (Hsplit : filter P positions ≡ₚ
                   filter P (take n shuffled) ++ filter P (drop n shuffled)).
  { rewrite <- filter_app, take_drop. symmetry. by apply filter_Permutation. }
  rewrite Hsplit, length_app.
  rewrite length_filter_none, length_filter_all.
  - rewrite length_drop. lia.
  - intros [r c] Hin. unfold P, is_clue. simpl. rewrite get_zero_cells.
    rewrite decide_False by (intros Hin'; by apply (Hdisj _ Hin')).
    assert (Hpos : (r, c) ∈ positions).
    { rewrite <- Hperm, <- (take_drop n shuffled). apply elem_of_app. by right. }
    apply elem_of_positions in Hpos as [Hr Hc].
    split; [by apply get_is_Some|by apply Hfull].
  - intros [r c] Hin [Hsome Hnz]. simpl in *. rewrite get_zero_cells in Hnz.
    rewrite get_zero_cells in Hsome. rewrite decide_True in Hnz, Hsome by done.
    destruct (get sol r c); simpl in *; [done|]. by destruct Hsome.
Qed.

(** C2: for a clue count between 0 and 81 the generator returns a puzzle
    with exactly [min(clueCount, 81)] non-zero cells, each equal to the
    cell of the returned solution. *)
Theorem generatePuzzle_clue_count fuel clues tape t0 t1 :
  82 ≤ fuel → (0 ≤ clues ≤ 81)%Z →
  ∃ g tape',
    generatePuzzle fuel clues tape t0 t1 = Some (g, tape') ∧
    count_clues (puzzle g) = Z.to_nat (Z.min clues 81) ∧
    (∀ r c, get (puzzle g) r c ≠ Some 0%Z →
            get (puzzle g) r c = get (solution g) r c).
Proof.
  intros Hfuel Hclues. unfold generatePuzzle.
  destruct (generateFullSolution_solved fuel tape t0 t1 Hfuel)
    as (sol & st & tape1 & -> & _ & Hsol).
  pose proof (shuffleArray_Permutation positions tape1) as Hperm.
  destruct (shuffleArray positions tape1) as [shuffled tape2]. simpl in Hperm.
  eexists _, _. split; [done|]. simpl.
  rewrite cloneBoard_id, remove_cells_take by lia. split.
  - rewrite count_clues_zero_cells by (done || lia). lia.
  - intros r c Hnz. rewrite get_zero_cells in Hnz |- *.
    case_decide; [|done]. by destruct (get sol r c).
Qed.

Lemma generatePuzzle_clue_count_witness :
  ∃ g tape',
    generatePuzzle 82 32 [3; 5; 7; 11; 13; 2; 1; 0; 4] 0 1 = Some (g, tape') ∧
    count_clues (puzzle g) = 32 ∧
    (∀ r c, get (puzzle g) r c ≠ Some 0%Z →
            get (puzzle g) r c = get (solution g) r c).
Proof.
  apply (generatePuzzle_clue_count 82 32 [3; 5; 7; 11; 13; 2; 1; 0; 4] 0 1); lia.
Defined.

(** * Further properties of the engine *)

(** ** [isValidPlacement] and [validateBoard] *)

(** X1: on the grid, [isValidPlacement] returns true exactly when no other
    cell of the row, of the column or of the 3x3 box holds [num]. *)
Theorem isValidPlacement_iff_no_other_cell b r c num :
  r < 9 → c < 9 →
  (isValidPlacement b r c num = true ↔
   ∀ r' c', r' < 9 → c' < 9 → (r', c') ≠ (r, c) →
            r' = r ∨ c' = c ∨ (r' / 3 = r / 3 ∧ c' / 3 = c / 3) →
            get b r' c' ≠ Some num).
Proof.
  intros Hr Hc. rewrite isValidPlacement_peers by done. split.
  - intros H r' c' Hr' Hc' Hne Hunit. apply H; [done..|].
    unfold peer. destruct (decide (r' = r)); destruct (decide (c' = c));
      [congruence|lia..].
  - intros H r' c' Hr' Hc' Hpeer. apply H; [done..| |].
    + intros [= -> ->]. unfold peer in Hpeer. lia.
    + unfold peer in Hpeer. lia.
Qed.

Lemma isValidPlacement_iff_no_other_cell_witness :
  isValidPlacement classic_puzzle 0 2 4 = true ∧
  get classic_puzzle 0 1 ≠ Some 4%Z.
Proof.
  split; [reflexivity|].
  apply (proj1 (isValidPlacement_iff_no_other_cell classic_puzzle 0 2 4
                  ltac:(lia) ltac:(lia)) eq_refl 0 1);
    [lia | lia | intros [= ?] | by left].
Defined.

(** X2: the value of the cell itself plays no part: writing anything into
    [(r, c)] leaves [isValidPlacement] at [(r, c)] as it was. *)
Theorem isValidPlacement_ignores_own_cell b r c w num :
  isValidPlacement (set_cell b r c w) r c num = isValidPlacement b r c num.
Proof.
  apply eq_iff_eq_true. rewrite !isValidPlacement_true.
  split; intros H r' c' Hr' Hc' Hpeer.
  - rewrite <- (get_set_cell_ne b r c w) by by apply peer_neq. by apply H.
  - rewrite get_set_cell_ne by by apply peer_neq. by apply H.
Qed.

Lemma isValidPlacement_false b r c v :
  isValidPlacement b r c v = false →
  ∃ r' c', (r' < 9 ∨ r' / 3 = r / 3) ∧ (c' < 9 ∨ c' / 3 = c / 3) ∧
           peer r c r' c' ∧ get b r' c' = Some v.
Proof.
  intros Hf.
  set (l := (r' ← seq 0 9 ++ seq (r / 3 * 3) 3;
             c' ← seq 0 9 ++ seq (c / 3 * 3) 3; [(r', c')]) : list Pos).
  destruct (decide (Exists (fun p : Pos =>
                      peer r c p.1 p.2 ∧ get b p.1 p.2 = Some v) l))
    as [Hex|Hno].
  - apply Exists_exists in Hex as ([r' c'] & Hin & Hpeer & Hget).
    exists r', c'. cbn [fst snd] in Hpeer, Hget. unfold l in Hin.
    apply list_elem_of_bind in Hin as (r2 & Hin & Hr2).
    apply list_elem_of_bind in Hin as (c2 & Hin & Hc2).
    apply list_elem_of_singleton in Hin as [= -> ->].
    apply elem_of_app in Hr2, Hc2.
    repeat split; [| |done..].
    + destruct Hr2 as [Hr2|Hr2]; [left; apply elem_of_seq in Hr2; lia|].
      right. by apply list_elem_of_In, in_box_seq in Hr2.
    + destruct Hc2 as [Hc2|Hc2]; [left; apply elem_of_seq in Hc2; lia|].
      right. by apply list_elem_of_In, in_box_seq in Hc2.
  - exfalso. assert (isValidPlacement b r c v = true) as Ht; [|congruence].
    apply isValidPlacement_true. intros r' c' Hr' Hc' Hpeer Hget.
    apply Hno, Exists_exists. exists (r', c'). cbn [fst snd]. split; [|done].
    unfold l. apply list_elem_of_bind. exists r'. split.
    + apply list_elem_of_bind. exists c'. split; [by apply list_elem_of_singleton|].
      apply elem_of_app.
      destruct Hc' as [?|?]; [left; apply elem_of_seq; lia|].
      right. by apply list_elem_of_In, in_box_seq.
    + apply elem_of_app.
      destruct Hr' as [?|?]; [left; apply elem_of_seq; lia|].
      right. by apply list_elem_of_In, in_box_seq.
Qed.

(** X3: conflicts come in pairs.  A reported cell holds a non-zero value
    that is either outside 1..9 or also held by another cell of its row,
    column or box, and that other cell is reported as well. *)
Theorem validateBoard_conflicts_in_pairs b r c :
  In (r, c) (validateBoard b) →
  ∃ v, get b r c = Some v ∧ v ≠ 0%Z ∧
       ((v < 1 ∨ 9 < v)%Z ∨
        ∃ r' c', peer r c r' c' ∧ get b r' c' = Some v ∧
                 In (r', c') (validateBoard b)).
Proof.
  intros Hin. apply elem_of_validateBoard in Hin as (Hr & Hc & Hconf).
  unfold conflicting in Hconf. simpl in Hconf.
  destruct (get b r c) as [v|] eqn:Hget; [|done].
  apply andb_true_iff in Hconf as [Hnz Hbad].
  apply negb_true_iff, Z.eqb_neq in Hnz.
  exists v. split; [done|]. split; [done|].
  destruct (Z.ltb_spec v 1) as [?|Hge]; [left; lia|].
  destruct (Z.gtb_spec v 9) as [?|Hle]; [left; lia|].
  simpl in Hbad. apply negb_true_iff in Hbad. right.
  apply isValidPlacement_false in Hbad as (r' & c' & Hr' & Hc' & Hpeer & Hget').
  assert (r' < 9) by (destruct Hr' as [|He]; [done|exact (div3_lt9 r r' Hr He)]).
  assert (c' < 9) by (destruct Hc' as [|He]; [done|exact (div3_lt9 c c' Hc He)]).
  exists r', c'. split; [done|]. split; [done|].
  apply elem_of_validateBoard. split; [done|]. split; [done|].
  unfold conflicting. simpl. rewrite Hget'.
  apply andb_true_iff. split; [by apply negb_true_iff, Z.eqb_neq|].
  destruct (isValidPlacement b r' c' v) eqn:Hv; [|by rewrite orb_true_r].
  exfalso. rewrite isValidPlacement_peers in Hv by done.
  by apply (Hv r c Hr Hc (peer_sym _ _ _ _ Hpeer)).
Qed.

Lemma validateBoard_conflicts_in_pairs_witness :
  ∃ v, get row_clash 0 4 = Some v ∧ v ≠ 0%Z ∧
       ((v < 1 ∨ 9 < v)%Z ∨
        ∃ r' c', peer 0 4 r' c' ∧ get row_clash r' c' = Some v ∧
                 In (r', c') (validateBoard row_clash)).
Proof.
  apply (validateBoard_conflicts_in_pairs row_clash 0 4).
  vm_compute. right. by left.
Defined.

(** ** [isBoardSolved] *)

Lemma in_row_cells r c : c < 9 → (r, c) ∈ row_cells r.
Proof.
  intros Hc. unfold row_cells, idx9. apply list_elem_of_fmap.
  exists c. split; [done|]. apply elem_of_seq. lia.
Qed.

Lemma in_col_cells r c : r < 9 → (r, c) ∈ col_cells c.
Proof.
  intros Hr. unfold col_cells, idx9. apply list_elem_of_fmap.
  exists r. split; [done|]. apply elem_of_seq. lia.
Qed.

Lemma in_box_cells r c r' c' :
  r' / 3 = r / 3 → c' / 3 = c / 3 → (r', c') ∈ box_cells (r / 3) (c / 3).
Proof.
  intros Hr Hc. unfold box_cells. apply list_elem_of_bind. exists r'. split.
  - apply list_elem_of_bind. exists c'. split; [by apply list_elem_of_singleton|].
    apply elem_of_seq.
    pose proof (Nat.div_mod_eq c' 3). pose proof (Nat.mod_upper_bound c' 3). lia.
  - apply elem_of_seq.
    pose proof (Nat.div_mod_eq r' 3). pose proof (Nat.mod_upper_bound r' 3). lia.
Qed.

Lemma NoDup_fmap_inj_on {A B} (f : A → B) (l : list A) p q :
  NoDup (f <$> l) → p ∈ l → q ∈ l → f p = f q → p = q.
Proof.
  induction l as [|a l IH]; intros Hnd Hp Hq Heq; [by apply elem_of_nil in Hp|].
  rewrite fmap_cons in Hnd. apply NoDup_cons in Hnd as [Hnin Hnd].
  apply elem_of_cons in Hp as [->|Hp]; apply elem_of_cons in Hq as [->|Hq].
  - done.
  - exfalso. apply Hnin. rewrite Heq. by apply list_elem_of_fmap_2.
  - exfalso. apply Hnin. rewrite <- Heq. by apply list_elem_of_fmap_2.
  - by apply IH.
Qed.

Lemma elem_of_digits v : v ∈ digits → (1 ≤ v ≤ 9)%Z.
Proof.
  unfold digits. intros H.
  repeat (apply elem_of_cons in H as [->|H]; [lia|]).
  by apply elem_of_nil in H.
Qed.

Lemma NoDup_digits : NoDup (Some <$> digits).
Proof. apply (bool_decide_unpack _). vm_compute. exact I. Qed.

(** In a unit that holds each digit once, every cell holds a digit and no
    two cells hold the same. *)
Lemma each_digit_once_cell b cells p :
  each_digit_once b cells → p ∈ cells →
  ∃ v, get b p.1 p.2 = Some v ∧ (1 ≤ v ≤ 9)%Z.
Proof.
  intros Hperm Hp.
  assert (Hin : get b p.1 p.2 ∈ unit_values b cells).
  { unfold unit_values. apply list_elem_of_fmap. by exists p. }
  unfold each_digit_once in Hperm. rewrite Hperm in Hin.
  apply list_elem_of_fmap in Hin as (v & Hv & Hd).
  exists v. split; [done|]. by apply elem_of_digits.
Qed.

Lemma each_digit_once_distinct b cells p q :
  each_digit_once b cells → p ∈ cells → q ∈ cells →
  get b p.1 p.2 = get b q.1 q.2 → p = q.
Proof.
  intros Hperm Hp Hq Heq.
  apply (NoDup_fmap_inj_on (fun p : Pos => get b p.1 p.2) cells); try done.
  unfold each_digit_once, unit_values in Hperm. rewrite Hperm.
  apply NoDup_digits.
Qed.

Lemma valid_solution_is_solved b : valid_solution b → isBoardSolved b = true.
Proof.
  intros (Hrows & Hcols & Hboxes). apply isBoardSolved_true.
  assert (Hcell : ∀ r c, r < 9 → c < 9 →
            ∃ v, get b r c = Some v ∧ (1 ≤ v ≤ 9)%Z).
  { intros r c Hr Hc.
    apply (each_digit_once_cell b (row_cells r) (r, c)); [by apply Hrows|].
    by apply in_row_cells. }
  split.
  - apply isBoardComplete_true. intros r c Hr Hc Hz.
    destruct (Hcell r c Hr Hc) as (v & Hv & Hrange). rewrite Hz in Hv.
    simplify_eq. lia.
  - apply validateBoard_nil. intros r c v Hr Hc Hv Hnz.
    destruct (Hcell r c Hr Hc) as (v' & Hv' & Hrange). simplify_eq.
    split; [done|]. apply isValidPlacement_peers; [done..|].
    intros r' c' Hr' Hc' Hpeer Hget.
    apply (peer_neq _ _ _ _ Hpeer).
    destruct Hpeer as [[-> Hne]|[[-> Hne]|(Hbr & Hbc & Hne)]].
    + apply (each_digit_once_distinct b (row_cells r)); cbn [fst snd];
        [by apply Hrows|by apply in_row_cells..|congruence].
    + apply (each_digit_once_distinct b (col_cells c)); cbn [fst snd];
        [by apply Hcols|by apply in_col_cells..|congruence].
    + apply (each_digit_once_distinct b (box_cells (r / 3) (c / 3)));
        cbn [fst snd].
      * pose proof (Nat.div_mod_eq r 3). pose proof (Nat.div_mod_eq c 3).
        apply Hboxes; lia.
      * by apply in_box_cells.
      * by apply in_box_cells.
      * congruence.
Qed.

Lemma solved_is_valid_solution b :
  wf_board b → isBoardSolved b = true → valid_solution b.
Proof.
  intros Hwf Hs. apply isBoardSolved_true in Hs as [Hfull Hvalid].
  apply validateBoard_nil in Hvalid.
  split; [|split].
  - intros r Hr. by apply unit_each_digit_once, row_is_unit.
  - intros c Hc. by apply unit_each_digit_once, col_is_unit.
  - intros br bc Hbr Hbc. by apply unit_each_digit_once, box_is_unit.
Qed.

(** X4: on a 9x9 board [isBoardSolved] is true exactly when every row,
    every column and every 3x3 box holds each digit 1..9 once. *)
Theorem isBoardSolved_iff_valid_solution b :
  wf_board b → (isBoardSolved b = true ↔ valid_solution b).
Proof.
  intros Hwf. split.
  - by apply solved_is_valid_solution.
  - apply valid_solution_is_solved.
Qed.

Lemma isBoardSolved_iff_valid_solution_witness :
  wf_board classic_puzzle ∧ ¬ valid_solution classic_puzzle.
Proof.
  assert (Hwf : wf_board classic_puzzle) by compute_done.
  split; [exact Hwf|]. intros Hvs.
  apply (isBoardSolved_iff_valid_solution classic_puzzle Hwf) in Hvs.
  vm_compute in Hvs. discriminate.
Defined.

(** ** The solver decides whether the board can be completed *)

Lemma resolve_cube_perm cube tape :
  cube_perm_ok cube → perm_cube (resolve_cube cube tape).1.
Proof.
  destruct cube as [cb|]; simpl; [done|].
  intros _. apply buildCandidateCube_perm.
Qed.

Lemma ascending_cube_perm : perm_cube ascending_cube.
Proof.
  split; [done|]. unfold ascending_cube.
  apply Forall_replicate. split; [by rewrite length_replicate|].
  by apply Forall_replicate.
Qed.

Lemma has_completion_no_conflict b : has_completion b → no_conflict b.
Proof.
  intros (sol & Hsol & Hext) r c v Hr Hc Hv Hnz.
  pose proof (Hext r c v Hv Hnz) as Hsv.
  destruct (solution_cell sol r c Hsol Hr Hc) as (v' & Hv' & Hrange & _).
  simplify_eq. split; [done|].
  by apply (solution_placement_valid b sol).
Qed.

(** X5: the answer [solved = false] is never wrong.  With no cube or a
    cube of permutations of 1..9, a call that returns [solved = false] was
    given a board that no finished grid completes. *)
Theorem unsolved_means_no_completion fuel b cube tape t0 t1 stats b' tape' :
  cube_perm_ok cube →
  solveBoardWithStats fuel b cube tape t0 t1 = Some (stats, b', tape') →
  solved stats = false →
  ¬ has_completion b.
Proof.
  intros Hcube Hsolve Hfalse (sol & Hsol & Hext).
  apply solveBoardWithStats_Some in Hsolve as (st' & Hbt & _).
  rewrite Hfalse in Hbt.
  pose proof (resolve_cube_perm cube tape Hcube) as Hperm.
  destruct (backtrack_complete _ sol (fuel `max` 82) (mkState b 0) Hperm Hsol)
    as [st2 Hbt2]; [done|simpl; pose proof (count_empty_le b); lia|].
  apply (backtrack_fuel_mono fuel (fuel `max` 82)) in Hbt; [|lia].
  congruence.
Qed.

Lemma unsolved_means_no_completion_witness : ¬ has_completion unsolvable_board.
Proof.
  apply (unsolved_means_no_completion 82 unsolvable_board (Some ascending_cube)
           [] 0 1 (mkStats false 2 (1 - 0)) unsolvable_board []).
  - exact ascending_cube_perm.
  - vm_compute. reflexivity.
  - reflexivity.
Defined.

Lemma is_solution_solved sol : is_solution sol → isBoardSolved sol = true.
Proof.
  intros (_ & Hnc & Hfull). apply isBoardSolved_true. split.
  - by apply isBoardComplete_true.
  - by apply validateBoard_nil.
Qed.

(** On a 9x9 board without conflicts the solver returns; a success
    leaves a finished grid that keeps the given cells, a failure means the
    board has no completion. *)
Lemma solve_conflict_free fuel b cube tape t0 t1 :
  wf_board b → validateBoard b = [] → cube_perm_ok cube →
  count_empty b < fuel →
  ∃ stats b' tape',
    solveBoardWithStats fuel b cube tape t0 t1 = Some (stats, b', tape') ∧
    (solved stats = true → is_solution b' ∧ extends b b') ∧
    (solved stats = false → ¬ has_completion b).
Proof.
  intros Hwf Hvalid Hcube Hfuel.
  pose proof (resolve_cube_perm cube tape Hcube) as Hperm.
  pose proof (perm_cube_wf _ Hperm) as Hcwf.
  destruct (backtrack_terminates _ fuel (mkState b 0) Hcwf Hfuel)
    as [[ok st'] Hbt].
  exists (mkStats ok (st_backtracks st') (t1 - t0)), (st_board st'),
    (resolve_cube cube tape).2.
  split; [|split]; simpl.
  - unfold solveBoardWithStats.
    destruct (resolve_cube cube tape) as [cube' tape']. simpl in *.
    by rewrite Hbt.
  - intros ->.
    pose proof (backtrack_returns_ok _ _ _ _ _ Hbt) as [_ Hext _ Hfull].
    split; [|exact Hext]. split; [|split].
    + eapply backtrack_wf; [|exact Hbt]. done.
    + eapply backtrack_no_conflict; [exact Hcwf| |exact Hbt].
      simpl. by apply validateBoard_nil.
    + apply first_empty_None. by apply Hfull.
  - intros -> (sol & Hsol & Hext).
    destruct (backtrack_complete _ sol fuel (mkState b 0) Hperm Hsol Hext Hfuel)
      as [st2 Hbt2]. congruence.
Qed.

(** X6: on a 9x9 board without conflicts the solver is a decision
    procedure.  With no cube or a cube of permutations of 1..9 it returns,
    [solved] is true exactly when some finished grid completes the board,
    and then the board it leaves is such a grid: a valid solution that
    keeps every given cell. *)
Theorem solver_decides_completion fuel b cube tape t0 t1 :
  wf_board b → validateBoard b = [] → cube_perm_ok cube →
  count_empty b < fuel →
  ∃ stats b' tape',
    solveBoardWithStats fuel b cube tape t0 t1 = Some (stats, b', tape') ∧
    (solved stats = true ↔ has_completion b) ∧
    (solved stats = true →
       is_solution b' ∧ extends b b' ∧ valid_solution b').
Proof.
  intros Hwf Hvalid Hcube Hfuel.
  destruct (solve_conflict_free fuel b cube tape t0 t1 Hwf Hvalid Hcube Hfuel)
    as (stats & b' & tape' & Hsolve & Hgood & Hbad).
  exists stats, b', tape'. split; [done|]. split; [split|].
  - intros Hok. exists b'. by apply Hgood.
  - intros Hcomp. destruct (solved stats); [done|]. by destruct Hbad.
  - intros Hok. destruct (Hgood Hok) as [Hsol Hext].
    split; [done|]. split; [done|].
    apply solved_is_valid_solution; [by destruct Hsol|].
    by apply is_solution_solved.
Qed.

Lemma solver_decides_completion_witness :
  ∃ stats b' tape',
    solveBoardWithStats 82 classic_puzzle None [2; 7; 1] 0 1
      = Some (stats, b', tape') ∧
    (solved stats = true ↔ has_completion classic_puzzle) ∧
    (solved stats = true →
       is_solution b' ∧ extends classic_puzzle b' ∧ valid_solution b').
Proof.
  apply (solver_decides_completion 82 classic_puzzle None [2; 7; 1] 0 1).
  - compute_done.
  - reflexivity.
  - exact I.
  - pose proof (count_empty_le classic_puzzle). lia.
Defined.

(** ** [shuffleArray] and [buildCandidateCube] *)

Lemma draw_tape tape n : (draw tape n).2 = drop 1 tape.
Proof. by destruct tape. Qed.

Lemma shuffle_from_tape {A} i (arr : list A) tape :
  (shuffle_from i arr tape).2 = drop i tape.
Proof.
  revert arr tape. induction i as [|i IH]; intros arr tape; [done|].
  cbn [shuffle_from]. pose proof (draw_tape tape (S i + 1)) as Hd.
  destruct (draw tape (S i + 1)) as [j tape']. simpl in Hd.
  rewrite IH, Hd, drop_drop. done.
Qed.

(** X7: [shuffleArray] returns a rearrangement of its argument (same
    elements, same multiplicities), calls [Math.random] once for each
    element but the first, and leaves an array of at most one element as it
    is. *)
Theorem shuffleArray_rearranges {A} (arr : list A) tape :
  (shuffleArray arr tape).1 ≡ₚ arr ∧
  (shuffleArray arr tape).2 = drop (length arr - 1) tape ∧
  (length arr ≤ 1 → shuffleArray arr tape = (arr, tape)).
Proof.
  split; [apply shuffleArray_Permutation|].
  split; [apply shuffle_from_tape|].
  intros Hlen. unfold shuffleArray.
  by replace (length arr - 1) with 0 by lia.
Qed.

Lemma length_swap {A} (arr : list A) i j : length (swap arr i j) = length arr.
Proof.
  unfold swap. destruct (arr !! i), (arr !! j); try done.
  by rewrite !length_insert.
Qed.

Lemma swap_lookup_l {A} (arr : list A) i j x :
  i < length arr → arr !! j = Some x → swap arr i j !! i = Some x.
Proof.
  intros Hi Hj. unfold swap.
  destruct (lookup_lt_is_Some_2 arr i Hi) as [y Hy]. rewrite Hy, Hj.
  destruct (decide (i = j)) as [->|Hne].
  - rewrite list_lookup_insert_eq by (by rewrite length_insert). congruence.
  - rewrite list_lookup_insert_ne by done. by rewrite list_lookup_insert_eq.
Qed.

Lemma swap_app_l {A} (l1 l2 : list A) i j :
  i < length l1 → j < length l1 → swap (l1 ++ l2) i j = swap l1 i j ++ l2.
Proof.
  intros Hi Hj. unfold swap. rewrite !lookup_app_l by done.
  destruct (l1 !! i), (l1 !! j); try done.
  rewrite <- !insert_app_l by (by rewrite ?length_insert). done.
Qed.

(** The loop never touches the cells above its starting index. *)
Lemma shuffle_from_app {A} i (l1 l2 : list A) tape :
  i < length l1 →
  shuffle_from i (l1 ++ l2) tape =
  ((shuffle_from i l1 tape).1 ++ l2, (shuffle_from i l1 tape).2).
Proof.
  revert l1 tape. induction i as [|i IH]; intros l1 tape Hi; [done|].
  cbn [shuffle_from]. pose proof (draw_lt tape (S i + 1)) as Hj.
  destruct (draw tape (S i + 1)) as [j tape']. simpl in Hj.
  rewrite swap_app_l by lia. apply IH. rewrite length_swap. lia.
Qed.

Lemma shuffle_from_reaches {A} n : ∀ (arr target : list A),
  length arr = S n → target ≡ₚ arr →
  ∃ tape, (shuffle_from n arr tape).1 = target.
Proof.
  induction n as [|n IH]; intros arr target Hlen Hperm.
  - exists []. destruct arr as [|a [|??]]; try done. simpl.
    by apply Permutation_singleton_r in Hperm.
  - assert (Hlen' : length target = S (S n)) by by rewrite Hperm.
    destruct (lookup_lt_is_Some_2 target (S n)) as [x Hx]; [lia|].
    assert (x ∈ arr) as Hin.
    { rewrite <- Hperm. by eapply list_elem_of_lookup_2. }
    apply list_elem_of_lookup in Hin as [j Hj].
    pose proof (lookup_lt_Some _ _ _ Hj) as Hjlt.
    pose proof (swap_lookup_l arr (S n) j x ltac:(lia) Hj) as Hlast.
    pose proof (length_swap arr (S n) j) as Hslen.
    pose proof (take_S_r _ _ _ Hlast) as Hsplit.
    rewrite take_ge in Hsplit by lia.
    pose proof (take_S_r _ _ _ Hx) as Htsplit.
    rewrite take_ge in Htsplit by lia.
    destruct (IH (take (S n) (swap arr (S n) j)) (take (S n) target))
      as [tape0 Htape0].
    { rewrite length_take_le; lia. }
    { apply (Permutation_app_inv_r [x]).
      by rewrite <- Hsplit, <- Htsplit, swap_Permutation. }
    exists (j :: tape0). cbn [shuffle_from draw].
    replace (j `mod` (S n + 1)) with j by (symmetry; apply Nat.mod_small; lia).
    rewrite Hsplit, shuffle_from_app by (rewrite length_take_le; lia).
    simpl. by rewrite Htape0, <- Htsplit.
Qed.

(** X8: every ordering can come out: for each rearrangement of the
    array there are draws of [Math.random] for which [shuffleArray] returns
    it. *)
Theorem shuffleArray_reaches_every_order {A} (arr target : list A) :
  target ≡ₚ arr → ∃ tape, (shuffleArray arr tape).1 = target.
Proof.
  intros Hperm. unfold shuffleArray.
  destruct arr as [|a arr].
  - exists []. simpl. by apply Permutation_nil_r in Hperm.
  - apply shuffle_from_reaches; [|done]. simpl. lia.
Qed.

Lemma shuffleArray_reaches_every_order_witness :
  ∃ tape, (shuffleArray digits tape).1 = [9; 8; 7; 6; 5; 4; 3; 2; 1]%Z.
Proof.
  apply (shuffleArray_reaches_every_order digits).
  apply (bool_decide_unpack _). vm_compute. exact I.
Defined.

Lemma build_cube_row_tape ns row tape :
  (foldl (fun '(row, tape) (_ : nat) =>
            let '(cands, tape') := shuffleArray digits tape in
            (row ++ [cands], tape'))
         (row, tape) ns).2 = drop (8 * length ns) tape.
Proof.
  revert row tape. induction ns as [|n ns IH]; intros row tape; [done|].
  cbn [foldl]. pose proof (shuffle_from_tape 8 digits tape) as Ht.
  change (shuffle_from 8 digits tape) with (shuffleArray digits tape) in Ht.
  destruct (shuffleArray digits tape) as [cands tape']. simpl in Ht.
  rewrite IH, Ht, drop_drop. f_equal. simpl. lia.
Qed.

Lemma buildCandidateCube_tape_fold ns cube tape :
  (foldl (fun '(cube, tape) (_ : nat) =>
            let '(row, tape') := build_cube_row tape in
            (cube ++ [row], tape'))
         (cube, tape) ns).2 = drop (72 * length ns) tape.
Proof.
  revert cube tape. induction ns as [|n ns IH]; intros cube tape; [done|].
  cbn [foldl]. pose proof (build_cube_row_tape idx9 [] tape) as Ht.
  change (foldl _ ([], tape) idx9) with (build_cube_row tape) in Ht.
  destruct (build_cube_row tape) as [row tape']. simpl in Ht.
  rewrite IH, Ht, drop_drop. f_equal. simpl. lia.
Qed.

(** X9: [buildCandidateCube] returns a cube of the data model, 9 rows of
    9 cells that each hold 1..9 once, and draws 648 random numbers for
    it (eight for each cell). *)
Theorem buildCandidateCube_shape tape :
  perm_cube (buildCandidateCube tape).1 ∧
  wf_cube (buildCandidateCube tape).1 ∧
  (buildCandidateCube tape).2 = drop 648 tape.
Proof.
  split; [apply buildCandidateCube_perm|].
  split; [apply perm_cube_wf, buildCandidateCube_perm|].
  apply (buildCandidateCube_tape_fold idx9 [] tape).
Qed.

(** ** [generateFullSolution] and [generatePuzzle] *)

Lemma solve_completable fuel b cube tape t0 t1 :
  has_completion b → cube_perm_ok cube → count_empty b < fuel →
  ∃ stats b' tape',
    solveBoardWithStats fuel b cube tape t0 t1 = Some (stats, b', tape') ∧
    solved stats = true ∧ isBoardSolved b' = true ∧ extends b b'.
Proof.
  intros Hcomp Hcube Hfuel.
  pose proof (has_completion_no_conflict b Hcomp) as Hnc.
  destruct Hcomp as (sol & Hsol & Hext).
  pose proof (resolve_cube_perm cube tape Hcube) as Hperm.
  destruct (backtrack_complete _ sol fuel (mkState b 0) Hperm Hsol Hext Hfuel)
    as [st' Hbt].
  exists (mkStats true (st_backtracks st') (t1 - t0)), (st_board st'),
    (resolve_cube cube tape).2.
  split; [|split; [done|]].
  - unfold solveBoardWithStats.
    destruct (resolve_cube cube tape) as [cube' tape']. simpl in *.
    by rewrite Hbt.
  - pose proof (backtrack_returns_ok _ _ _ _ _ Hbt) as [_ Hext' _ Hfull].
    split; [|exact Hext']. apply isBoardSolved_true. split.
    + apply isBoardComplete_first_empty. by apply Hfull.
    + apply validateBoard_nil.
      eapply backtrack_no_conflict; [by apply perm_cube_wf| |exact Hbt]. done.
Qed.

(** X10: [generateFullSolution] never fails: whatever the random draws,
    it returns [solved = true] and a 9x9 board that is a valid finished
    Sudoku. *)
Theorem generateFullSolution_always_valid fuel tape t0 t1 :
  82 ≤ fuel →
  ∃ sol stats tape',
    generateFullSolution fuel tape t0 t1 = Some (sol, stats, tape') ∧
    solved stats = true ∧ wf_board sol ∧ isBoardSolved sol = true ∧
    valid_solution sol.
Proof.
  intros Hfuel.
  destruct (generateFullSolution_solved fuel tape t0 t1 Hfuel)
    as (sol & stats & tape' & Hgen & Hok & Hsol).
  exists sol, stats, tape'. split; [done|]. split; [done|].
  pose proof (is_solution_solved sol Hsol) as Hs.
  destruct Hsol as (Hwf & _). split; [done|]. split; [done|].
  by apply solved_is_valid_solution.
Qed.

Lemma generateFullSolution_always_valid_witness :
  ∃ sol stats tape',
    generateFullSolution 82 [5; 1; 8; 0; 3] 0 1 = Some (sol, stats, tape') ∧
    solved stats = true ∧ wf_board sol ∧ isBoardSolved sol = true ∧
    valid_solution sol.
Proof. apply (generateFullSolution_always_valid 82 [5; 1; 8; 0; 3] 0 1). lia. Defined.

Lemma remove_cells_nonpos toRemove (shuffled : list Pos) p :
  (toRemove ≤ 0)%Z → remove_cells toRemove shuffled p = p.
Proof.
  intros Hneg. unfold remove_cells.
  generalize (seq 0 (length shuffled)). intros l. revert p.
  induction l as [|i l IH]; intros p; [done|].
  cbn [foldl]. destruct (Z.ltb_spec (Z.of_nat i) toRemove); [lia|]. apply IH.
Qed.

Lemma wf_zero_cells (l : list Pos) p :
  wf_board p → wf_board (foldl zero_cell p l).
Proof.
  revert p. induction l as [|pos l IH]; intros p Hwf; [done|].
  cbn [foldl]. apply IH. by apply wf_set_cell.
Qed.

Lemma no_conflict_zero b r c : no_conflict b → no_conflict (set_cell b r c 0).
Proof.
  intros Hok r' c' v Hr' Hc' Hget Hnz.
  destruct (decide ((r, c) = (r', c'))) as [[= <- <-]|Hne].
  { rewrite get_set_cell_eq in Hget. destruct (get b r c); by simplify_eq/=. }
  rewrite get_set_cell_ne in Hget by done.
  destruct (Hok r' c' v Hr' Hc' Hget Hnz) as [Hrange Hv]. split; [done|].
  rewrite isValidPlacement_peers in Hv |- * by done.
  intros r2 c2 Hr2 Hc2 Hpeer.
  destruct (decide ((r, c) = (r2, c2))) as [[= <- <-]|Hne2].
  - rewrite get_set_cell_eq. destruct (get b r c); simpl; congruence.
  - rewrite get_set_cell_ne by done. by apply Hv.
Qed.

Lemma no_conflict_zero_cells (l : list Pos) p :
  no_conflict p → no_conflict (foldl zero_cell p l).
Proof.
  revert p. induction l as [|pos l IH]; intros p Hok; [done|].
  cbn [foldl]. apply IH. by apply no_conflict_zero.
Qed.

(** What [generatePuzzle] returns: a finished grid and a puzzle obtained
    from it by zeroing the first [n] shuffled positions, [n] being
    [81 - clues] cut to the range 0..81. *)
Lemma generatePuzzle_Some fuel clues tape t0 t1 :
  82 ≤ fuel →
  ∃ sol st tape' shuffled,
    generatePuzzle fuel clues tape t0 t1 =
      Some (mkGenerated
              (foldl zero_cell sol
                 (take (Z.to_nat (81 - clues) `min` 81) shuffled)) sol st,
            tape') ∧
    is_solution sol ∧ solved st = true ∧ shuffled ≡ₚ positions.
Proof.
  intros Hfuel. unfold generatePuzzle.
  destruct (generateFullSolution_solved fuel tape t0 t1 Hfuel)
    as (sol & st & tape1 & -> & Hok & Hsol).
  pose proof (shuffleArray_Permutation positions tape1) as Hperm.
  destruct (shuffleArray positions tape1) as [shuffled tape2]. simpl in Hperm.
  exists sol, st, tape2, shuffled. split; [|done].
  rewrite cloneBoard_id. do 3 f_equal.
  assert (Hlen : length shuffled = 81) by by rewrite Hperm.
  destruct (Z.le_gt_cases (81 - clues) 0) as [Hneg|Hpos].
  - rewrite remove_cells_nonpos by done.
    by replace (Z.to_nat (81 - clues) `min` 81) with 0 by lia.
  - rewrite remove_cells_take by lia.
    destruct (decide (Z.to_nat (81 - clues) ≤ 81)).
    + by rewrite Nat.min_l by done.
    + rewrite Nat.min_r by lia. by rewrite !take_ge by lia.
Qed.

(** X11: for every integer [clues], in range or not, the puzzle has
    [clues] non-zero cells cut to 0..81: a count of 81 or more returns the
    solution itself, a count of 0 or less the empty board. *)
Theorem generatePuzzle_any_clue_count fuel clues tape t0 t1 :
  82 ≤ fuel →
  ∃ g tape',
    generatePuzzle fuel clues tape t0 t1 = Some (g, tape') ∧
    count_clues (puzzle g) = Z.to_nat (Z.max 0 (Z.min clues 81)) ∧
    ((81 ≤ clues)%Z → puzzle g = solution g) ∧
    ((clues ≤ 0)%Z → all_empty (puzzle g)).
Proof.
  intros Hfuel.
  destruct (generatePuzzle_Some fuel clues tape t0 t1 Hfuel)
    as (sol & st & tape' & shuffled & -> & Hsol & _ & Hperm).
  eexists _, _. split; [done|]. simpl.
  assert (Hlen : length shuffled = 81) by by rewrite Hperm.
  split; [|split].
  - rewrite count_clues_zero_cells by (done || lia). lia.
  - intros Hc. by replace (Z.to_nat (81 - clues) `min` 81) with 0 by lia.
  - intros Hc r c Hr Hc'.
    replace (Z.to_nat (81 - clues) `min` 81) with 81 by lia.
    rewrite take_ge by lia. rewrite get_zero_cells.
    rewrite decide_True by (rewrite Hperm; by apply elem_of_positions).
    destruct Hsol as (Hwf & _).
    by destruct (get_is_Some sol r c Hwf Hr Hc') as [v ->].
Qed.

Lemma generatePuzzle_any_clue_count_witness :
  ∃ g tape',
    generatePuzzle 82 (-5) [1; 2; 3] 0 1 = Some (g, tape') ∧
    count_clues (puzzle g) = 0 ∧
    ((81 ≤ -5)%Z → puzzle g = solution g) ∧
    ((-5 ≤ 0)%Z → all_empty (puzzle g)).
Proof. apply (generatePuzzle_any_clue_count 82 (-5) [1; 2; 3] 0 1). lia. Defined.

(** X12: what the generator hands out is sound.  The solution is a valid
    finished grid and the statistics say [solved]; the puzzle is a 9x9
    board with values in 0..9 on which [validateBoard] finds nothing, and
    the solver, with any cube of the data model, solves it. *)
Theorem generatePuzzle_is_playable fuel clues tape t0 t1 :
  82 ≤ fuel →
  ∃ g tape',
    generatePuzzle fuel clues tape t0 t1 = Some (g, tape') ∧
    solved (stats g) = true ∧
    wf_board (solution g) ∧ isBoardSolved (solution g) = true ∧
    wf_board (puzzle g) ∧ validateBoard (puzzle g) = [] ∧
    (∀ r c v, get (puzzle g) r c = Some v → (0 ≤ v ≤ 9)%Z) ∧
    (∀ fuel2 cube tape2 u0 u1,
       82 ≤ fuel2 → cube_perm_ok cube →
       ∃ st b' tape2',
         solveBoardWithStats fuel2 (puzzle g) cube tape2 u0 u1
           = Some (st, b', tape2') ∧
         solved st = true ∧ isBoardSolved b' = true ∧ extends (puzzle g) b').
Proof.
  intros Hfuel.
  destruct (generatePuzzle_Some fuel clues tape t0 t1 Hfuel)
    as (sol & st & tape' & shuffled & -> & Hsol & Hok & Hperm).
  eexists _, _. split; [done|]. simpl.
  set (l := take (Z.to_nat (81 - clues) `min` 81) shuffled).
  pose proof Hsol as (Hwf & Hnc & Hfull).
  assert (Hagree : extends (foldl zero_cell sol l) sol).
  { intros r c v Hv Hnz. rewrite get_zero_cells in Hv.
    case_decide; [|done]. destruct (get sol r c); by simplify_eq/=. }
  split; [done|]. split; [done|]. split; [by apply is_solution_solved|].
  split; [by apply wf_zero_cells|].
  split; [by apply validateBoard_nil, no_conflict_zero_cells|]. split.
  - intros r c v Hv. rewrite get_zero_cells in Hv. case_decide.
    + destruct (get sol r c); simplify_eq/=. lia.
    + destruct (get_Some_lt sol r c v Hwf Hv) as [Hr Hc].
      destruct (solution_cell sol r c Hsol Hr Hc) as (v' & Hv' & Hrange & _).
      simplify_eq. lia.
  - intros fuel2 cube tape2 u0 u1 Hfuel2 Hcube.
    apply solve_completable; [by exists sol|done|].
    pose proof (count_empty_le (foldl zero_cell sol l)). lia.
Qed.

Lemma generatePuzzle_is_playable_witness :
  ∃ g tape',
    generatePuzzle 82 24 [6; 6; 1; 0; 9; 4] 0 1 = Some (g, tape') ∧
    solved (stats g) = true ∧ validateBoard (puzzle g) = [].
Proof.
  destruct (generatePuzzle_is_playable 82 24 [6; 6; 1; 0; 9; 4] 0 1 ltac:(lia))
    as (g & tape' & Hgen & Hok & _ & _ & _ & Hvalid & _).
  exists g, tape'. split; [exact Hgen|]. split; [exact Hok|exact Hvalid].
Defined.

(** * The earlier revision against the current one *)

Section LegacyLoop.
Variable rec_old : Board → option (bool * Board).
Variable rec_new : SolverState → option (bool * SolverState).
Hypothesis rec_agree :
  ∀ b n, rec_old b = flag_and_board <$> rec_new (mkState b n).
Variables (r c : nat) (cands : list Z).

Lemma try_numbers_try_candidates nums : ∀ k b n,
  (∀ i, i < length nums → cands !! (k + i) = nums !! i) →
  Legacy.try_numbers rec_old r c nums b =
  flag_and_board <$>
    try_candidates rec_new r c cands (seq k (length nums)) (mkState b n).
Proof.
  induction nums as [|num nums IH]; intros k b n Hcands; [done|].
  cbn [length seq Legacy.try_numbers try_candidates st_board st_backtracks].
  pose proof (Hcands 0 ltac:(simpl; lia)) as H0.
  rewrite Nat.add_0_r in H0. rewrite H0. cbn [lookup list_lookup].
  assert (Hrest : ∀ i, i < length nums → cands !! (S k + i) = nums !! i).
  { intros i Hi. specialize (Hcands (S i) ltac:(simpl; lia)).
    by replace (k + S i) with (S k + i) in Hcands by lia. }
  destruct (isValidPlacement b r c num); [|by apply IH].
  rewrite (rec_agree _ n).
  destruct (rec_new _) as [[[] s1]|]; simpl; [done| |done].
  by apply IH.
Qed.
End LegacyLoop.

Lemma cube_at_ascending r c :
  r < 9 → c < 9 → cube_at ascending_cube r c = Some digits.
Proof.
  intros Hr Hc. unfold cube_at, ascending_cube.
  rewrite lookup_replicate_2 by done. by rewrite lookup_replicate_2.
Qed.

Lemma legacy_solveBoard_backtrack fuel : ∀ b n,
  Legacy.solveBoard fuel b =
  flag_and_board <$> backtrack fuel ascending_cube (mkState b n).
Proof.
  induction fuel as [|fuel IH]; intros b n; [done|].
  rewrite backtrack_unfold. cbn [Legacy.solveBoard st_board].
  destruct (first_empty b) as [[r c]|] eqn:Hfe; [|done].
  apply first_empty_Some in Hfe as (_ & Hr & Hc).
  rewrite cube_at_ascending by done.
  by apply (try_numbers_try_candidates _ _ IH r c digits digits 0).
Qed.

(** X13: the earlier [solveBoard], which tries 1..9 in ascending order, is
    the current solver run with the ascending cube: same flag, same board. *)
Theorem legacy_solveBoard_is_ascending_solve fuel b tape t0 t1 :
  Legacy.solveBoard fuel b =
  (fun res : Stats * Board * Tape => (solved res.1.1, res.1.2)) <$>
    solveBoardWithStats fuel b (Some ascending_cube) tape t0 t1.
Proof.
  rewrite (legacy_solveBoard_backtrack fuel b 0).
  unfold solveBoardWithStats. simpl.
  by destruct (backtrack fuel ascending_cube _) as [[ok st']|].
Qed.

Lemma legacy_validate_row_filter b r cs acc :
  foldl (Legacy.validate_cell b r) acc cs =
  acc ++ List.filter (legacy_conflicting b) (map (pair r) cs).
Proof.
  revert acc. induction cs as [|c cs IH]; intros acc; simpl.
  - by rewrite app_nil_r.
  - rewrite IH. unfold Legacy.validate_cell, legacy_conflicting. simpl.
    destruct (get b r c) as [v|]; [|done].
    destruct (v =? 0)%Z; simpl; [done|].
    destruct (isValidPlacement b r c v); simpl; [done|by rewrite <- app_assoc].
Qed.

Lemma legacy_validate_rows_filter b rs acc :
  foldl (fun conflicts r => foldl (Legacy.validate_cell b r) conflicts idx9)
        acc rs =
  acc ++ List.filter (legacy_conflicting b) (r ← rs; map (pair r) idx9).
Proof.
  revert acc. induction rs as [|r rs IH]; intros acc.
  - by rewrite app_nil_r.
  - cbn [foldl]. rewrite IH, legacy_validate_row_filter.
    change (mbind ?f (r :: rs)) with (f r ++ mbind f rs).
    by rewrite List.filter_app, app_assoc.
Qed.

Lemma legacy_validateBoard_filter b :
  Legacy.validateBoard b = List.filter (legacy_conflicting b) positions.
Proof. unfold Legacy.validateBoard. by rewrite legacy_validate_rows_filter. Qed.

(** X14: the range check is all the current [validateBoard] adds.  Every
    cell the earlier one reports the current one reports too, and on a board
    whose values lie in 0..9 the two return the same list. *)
Theorem legacy_validateBoard_agrees b :
  (∀ p, In p (Legacy.validateBoard b) → In p (validateBoard b)) ∧
  ((∀ r c v, r < 9 → c < 9 → get b r c = Some v → (0 ≤ v ≤ 9)%Z) →
   Legacy.validateBoard b = validateBoard b).
Proof.
  rewrite legacy_validateBoard_filter, validateBoard_filter. split.
  - intros p. rewrite !filter_In. intros [Hin Hl]. split; [done|].
    unfold legacy_conflicting, conflicting in *.
    destruct (get b p.1 p.2) as [v|]; [|done].
    apply andb_true_iff in Hl as [-> ->]. by rewrite orb_true_r.
  - intros Hrange. apply filter_ext_in. intros [r c] Hin.
    apply list_elem_of_In, elem_of_positions in Hin as [Hr Hc].
    unfold legacy_conflicting, conflicting. simpl.
    destruct (get b r c) as [v|] eqn:Hget; [|done].
    specialize (Hrange r c v Hr Hc Hget).
    destruct (Z.eqb_spec v 0); [done|]. simpl.
    destruct (Z.ltb_spec v 1); [lia|]. destruct (Z.gtb_spec v 9); [lia|]. done.
Qed.

Lemma legacy_validateBoard_agrees_witness :
  Legacy.validateBoard row_clash = validateBoard row_clash ∧
  Legacy.validateBoard out_of_range_board = [] ∧
  validateBoard out_of_range_board = [(0, 0)].
Proof.
  split; [|split; reflexivity].
  apply (proj2 (legacy_validateBoard_agrees row_clash)).
  intros r c v Hr Hc.
  do 9 (destruct r as [|r];
        [do 9 (destruct c as [|c]; [intros [= <-]; lia|]); lia|]).
  lia.
Defined.

(** * The callers in main.js *)

(** ** [attemptSolve] *)

Lemma length_pos_nil {A} (l : list A) : (0 <? length l) = false → l = [].
Proof. by destruct l. Qed.

(** X15: a solve that was not forced never shows a wrong answer.  On a 9x9
    board [attemptSolve(false)] always ends in one of five ways, and each
    says the truth: 'already valid' only for a valid finished grid; the two
    conflict reports carry the non-empty list of [validateBoard]; 'solved'
    comes with a valid finished grid that keeps every cell of the board;
    'no solution' only when no finished grid completes the board. *)
Theorem attemptSolve_unforced_outcomes fuel board tape t0 t1 :
  wf_board board → 82 ≤ fuel →
  ∃ out tape',
    attemptSolve fuel board false tape t0 t1 = Some (out, tape') ∧
    match out with
    | AlreadyValid => valid_solution board
    | FullWithConflicts cs =>
        isBoardComplete board = true ∧ cs = validateBoard board ∧ cs ≠ []
    | AskConfirmation cs =>
        isBoardComplete board = false ∧ cs = validateBoard board ∧ cs ≠ []
    | ShowSolved clone st =>
        validateBoard board = [] ∧ solved st = true ∧
        valid_solution clone ∧ extends board clone
    | ShowNoSolution st =>
        validateBoard board = [] ∧ solved st = false ∧
        ¬ has_completion board
    end.
Proof.
  intros Hwf Hfuel. unfold attemptSolve.
  destruct (isBoardComplete board) eqn:Hfull.
  { destruct (validateBoard board) as [|p cs] eqn:Hv; simpl.
    - eexists _, _. split; [done|]. apply solved_is_valid_solution; [done|].
      by apply isBoardSolved_true.
    - eexists _, _. split; [done|]. done. }
  destruct (0 <? length (validateBoard board)) eqn:Hpos; simpl.
  { eexists _, _. split; [done|]. split; [done|]. split; [done|].
    intros Hnil. by rewrite Hnil in Hpos. }
  apply length_pos_nil in Hpos. rewrite cloneBoard_id.
  pose proof (buildCandidateCube_perm tape) as Hperm.
  destruct (buildCandidateCube tape) as [cube tape1]. simpl in Hperm.
  destruct (solve_conflict_free fuel board (Some cube) tape1 t0 t1 Hwf Hpos Hperm)
    as (st & b' & tape2 & Hsolve & Hgood & Hbad);
    [pose proof (count_empty_le board); lia|].
  rewrite Hsolve. destruct (solved st) eqn:Hok.
  - eexists _, _. split; [done|]. split; [done|]. split; [done|].
    destruct (Hgood eq_refl) as [Hsol Hext]. split; [|done].
    apply solved_is_valid_solution; [by destruct Hsol|].
    by apply is_solution_solved.
  - eexists _, _. split; [done|]. split; [done|]. split; [done|].
    by apply Hbad.
Qed.

Lemma attemptSolve_unforced_outcomes_witness :
  ∃ out tape',
    attemptSolve 82 classic_puzzle false [4; 4; 2] 0 1 = Some (out, tape') ∧
    match out with
    | AlreadyValid => valid_solution classic_puzzle
    | FullWithConflicts cs =>
        isBoardComplete classic_puzzle = true ∧
        cs = validateBoard classic_puzzle ∧ cs ≠ []
    | AskConfirmation cs =>
        isBoardComplete classic_puzzle = false ∧
        cs = validateBoard classic_puzzle ∧ cs ≠ []
    | ShowSolved clone st =>
        validateBoard classic_puzzle = [] ∧ solved st = true ∧
        valid_solution clone ∧ extends classic_puzzle clone
    | ShowNoSolution st =>
        validateBoard classic_puzzle = [] ∧ solved st = false ∧
        ¬ has_completion classic_puzzle
    end.
Proof.
  apply (attemptSolve_unforced_outcomes 82 classic_puzzle [4; 4; 2] 0 1);
    [compute_done|lia].
Defined.

Lemma backtrack_false_no_completion fuel cube st st' :
  perm_cube cube → backtrack fuel cube st = Some (false, st') →
  ¬ has_completion (st_board st).
Proof.
  intros Hperm Hbt (sol & Hsol & Hext).
  destruct (backtrack_complete cube sol (fuel `max` 82) st Hperm Hsol Hext)
    as [st2 Hbt2]; [pose proof (count_empty_le (st_board st)); lia|].
  apply (backtrack_fuel_mono fuel (fuel `max` 82)) in Hbt; [|lia].
  congruence.
Qed.

(** X16: forced or not, [attemptSolve] keeps to this: a full board is
    never handed to the solver; the dialog opens only when the solve is not
    forced; a board shown as solved has no empty cell and keeps every cell
    of the board read; and 'no solution' is shown only for a board that no
    finished grid completes. *)
Theorem attemptSolve_any_outcome fuel board force tape t0 t1 out tape' :
  attemptSolve fuel board force tape t0 t1 = Some (out, tape') →
  match out with
  | AlreadyValid | FullWithConflicts _ =>
      isBoardComplete board = true ∧ tape' = tape
  | AskConfirmation _ => isBoardComplete board = false ∧ force = false
  | ShowSolved clone st =>
      isBoardComplete board = false ∧ isBoardComplete clone = true ∧
      extends board clone
  | ShowNoSolution st =>
      isBoardComplete board = false ∧ ¬ has_completion board
  end.
Proof.
  unfold attemptSolve. destruct (isBoardComplete board) eqn:Hfull.
  { destruct (length (validateBoard board) =? 0); by intros [= <- <-]. }
  destruct ((0 <? length (validateBoard board)) && negb force) eqn:Hgate.
  { intros [= <- <-]. apply andb_true_iff in Hgate as [_ Hf].
    by apply negb_true_iff in Hf. }
  rewrite cloneBoard_id.
  pose proof (buildCandidateCube_perm tape) as Hperm.
  destruct (buildCandidateCube tape) as [cube tape1]. simpl in Hperm.
  destruct (solveBoardWithStats _ _ _ _ _ _) as [[[st b'] tape2]|] eqn:Hsolve;
    [|done].
  apply solveBoardWithStats_Some in Hsolve as (st' & Hbt & -> & _).
  simpl in Hbt. destruct (solved st); intros [= <- <-].
  - pose proof (backtrack_returns_ok _ _ _ _ _ Hbt) as [_ Hext _ Hfull'].
    split; [done|]. split; [|done].
    apply isBoardComplete_first_empty. by apply Hfull'.
  - split; [done|]. by apply (backtrack_false_no_completion _ _ _ _ Hperm Hbt).
Qed.

Lemma attemptSolve_any_outcome_witness :
  isBoardComplete unsolvable_board = false ∧ ¬ has_completion unsolvable_board.
Proof.
  apply (attemptSolve_any_outcome 82 unsolvable_board true [] 0 1
           (ShowNoSolution (mkStats false 2 (1 - 0))) []).
  vm_compute. reflexivity.
Defined.

(** ** [verifyBoard] *)

Lemma filled_row_count b r cs n :
  foldl (fun n c => if negb (cell_is b r c 0) then n + 1 else n) n cs =
  n + length (List.filter (fun p : Pos => negb (cell_is b p.1 p.2 0))
                          (map (pair r) cs)).
Proof.
  revert n. induction cs as [|c cs IH]; intros n; simpl; [lia|].
  rewrite IH. destruct (cell_is b r c 0); simpl; lia.
Qed.

Lemma filled_rows_count b rs n :
  foldl (fun n r =>
           foldl (fun n c => if negb (cell_is b r c 0) then n + 1 else n)
                 n idx9) n rs =
  n + length (List.filter (fun p : Pos => negb (cell_is b p.1 p.2 0))
                          (r ← rs; map (pair r) idx9)).
Proof.
  revert n. induction rs as [|r rs IH]; intros n; [simpl; lia|].
  cbn [foldl]. rewrite IH, filled_row_count.
  change (mbind ?f (r :: rs)) with (f r ++ mbind f rs).
  rewrite List.filter_app, length_app. lia.
Qed.

Lemma length_filter_bool {A} (f : A → bool) (P : A → Prop)
    `{!∀ x, Decision (P x)} (l : list A) :
  (∀ x, x ∈ l → f x = true ↔ P x) →
  length (List.filter f l) = length (filter P l).
Proof.
  induction l as [|a l IH]; intros Hfp; [done|].
  rewrite filter_cons. simpl.
  assert (Hrec : length (List.filter f l) = length (filter P l))
    by (apply IH; intros x Hx; apply Hfp; by right).
  pose proof (Hfp a ltac:(by left)) as Ha.
  destruct (f a); destruct (decide (P a)) as [HP|HP]; simpl; try lia.
  - destruct HP. by apply Ha.
  - by apply Ha in HP.
Qed.

Lemma filledCount_count_clues b : wf_board b → filledCount b = count_clues b.
Proof.
  intros Hwf. unfold filledCount. rewrite filled_rows_count, Nat.add_0_l.
  change (r ← idx9; map (pair r) idx9) with positions.
  apply length_filter_bool. intros [r c] Hin.
  apply elem_of_positions in Hin as [Hr Hc]. unfold is_clue, cell_is. simpl.
  rewrite negb_true_iff, bool_decide_eq_false.
  split; [|by intros [_ ?]]. intros Hnz. split; [|done]. by apply get_is_Some.
Qed.

Lemma count_clues_zero b :
  wf_board b → count_clues b = 0 → all_empty b.
Proof.
  intros Hwf H0 r c Hr Hc. unfold count_clues in H0.
  apply length_zero_iff_nil in H0.
  destruct (decide (get b r c = Some 0%Z)) as [|Hnz]; [done|]. exfalso.
  apply (filter_nil_not_elem_of (is_clue b) positions (r, c) H0).
  - split; [by apply get_is_Some|done].
  - by apply elem_of_positions.
Qed.

(** X17: each message of [verifyBoard] is earned.  On a 9x9 board it says
    'empty' only when every cell is 0, 'invalid' with the non-empty list of
    [validateBoard], 'valid solution' only for a valid finished grid, and
    'valid so far' with the number of non-zero cells, between 1 and 80, of a
    board without conflicts. *)
Theorem verifyBoard_outcomes b :
  wf_board b →
  match verifyBoard b with
  | NothingToVerify => all_empty b
  | Invalid cs => cs = validateBoard b ∧ cs ≠ []
  | ValidSolution => valid_solution b
  | ValidSoFar n =>
      validateBoard b = [] ∧ n = count_clues b ∧ 0 < n < 81
  end.
Proof.
  intros Hwf. unfold verifyBoard.
  rewrite (filledCount_count_clues b Hwf).
  destruct (Nat.eqb_spec (count_clues b) 0) as [H0|Hn0];
    [by apply count_clues_zero|].
  destruct (validateBoard b) as [|p cs] eqn:Hv; simpl; [|done].
  destruct (isBoardComplete b) eqn:Hfull.
  - apply solved_is_valid_solution; [done|]. by apply isBoardSolved_true.
  - split; [done|]. split; [done|]. split; [lia|].
    destruct (first_empty b) as [[r c]|] eqn:Hfe.
    + apply first_empty_Some in Hfe as (Hz & Hr & Hc).
      unfold count_clues. rewrite <- length_positions.
      apply (length_filter_lt _ _ (r, c)); [by apply elem_of_positions|].
      by intros [_ ?].
    + apply isBoardComplete_first_empty in Hfe. congruence.
Qed.

Lemma verifyBoard_outcomes_witness :
  verifyBoard classic_puzzle = ValidSoFar 30 ∧
  validateBoard classic_puzzle = [] ∧ 30 = count_clues classic_puzzle ∧
  0 < 30 < 81.
Proof.
  split; [reflexivity|].
  assert (Hwf : wf_board classic_puzzle) by compute_done.
  exact (verifyBoard_outcomes classic_puzzle Hwf).
Defined.

(** ** [generateRandomPuzzle] and [handleNavigation] *)

Lemma clues_for_cases difficulty :
  clues_for difficulty = 24%Z ∨ clues_for difficulty = 32%Z ∨
  clues_for difficulty = 42%Z.
Proof.
  unfold clues_for.
  destruct (String.eqb difficulty "easy"); [by right; right|].
  destruct (String.eqb difficulty "medium"); [by right; left|].
  destruct (String.eqb difficulty "hard"); [by left|by right; left].
Qed.

(** X18: the status line of [generateRandomPuzzle] tells the truth.
    Whatever the select element holds, the clue count is 24, 32 or 42 (32
    for an unknown or missing difficulty), the puzzle written has exactly
    that many non-zero cells, and each of them equals the cell of the
    solution kept for later. *)
Theorem generateRandomPuzzle_clue_count fuel difficultySelect tape t0 t1 :
  82 ≤ fuel →
  ∃ g clues tape',
    generateRandomPuzzle fuel difficultySelect tape t0 t1
      = Some (g, clues, tape') ∧
    (clues = 24 ∨ clues = 32 ∨ clues = 42)%Z ∧
    (difficultySelect = None → clues = 32%Z) ∧
    count_clues (puzzle g) = Z.to_nat clues ∧
    (∀ r c, get (puzzle g) r c ≠ Some 0%Z →
            get (puzzle g) r c = get (solution g) r c).
Proof.
  intros Hfuel. unfold generateRandomPuzzle.
  set (difficulty := match difficultySelect with
                     | Some value => value
                     | None => "medium"
                     end).
  pose proof (clues_for_cases difficulty) as Hcases.
  destruct (generatePuzzle_Some fuel (clues_for difficulty) tape t0 t1 Hfuel)
    as (sol & st & tape' & shuffled & -> & Hsol & _ & Hperm).
  eexists _, _, _. split; [done|]. split; [done|]. split; [|split].
  - intros ->. done.
  - simpl. rewrite count_clues_zero_cells by (done || lia). lia.
  - simpl. intros r c Hnz. rewrite get_zero_cells in Hnz |- *.
    case_decide; [|done]. by destruct (get sol r c).
Qed.

Lemma generateRandomPuzzle_clue_count_witness :
  ∃ g clues tape',
    generateRandomPuzzle 82 (Some "hard") [7; 0; 3] 0 1
      = Some (g, clues, tape') ∧
    (clues = 24 ∨ clues = 32 ∨ clues = 42)%Z ∧
    (Some "hard" = None → clues = 32%Z) ∧
    count_clues (puzzle g) = Z.to_nat clues ∧
    (∀ r c, get (puzzle g) r c ≠ Some 0%Z →
            get (puzzle g) r c = get (solution g) r c).
Proof.
  apply (generateRandomPuzzle_clue_count 82 (Some "hard") [7; 0; 3] 0 1). lia.
Defined.

(** X19: the arrow keys never leave the grid.  From a cell of the grid
    each of the four arrow keys, and no other key, moves the focus: to the
    neighbouring cell in the direction of the key (one row up or down, one
    column left or right), or, when the cell is at the border on that side,
    to the cell itself; the target is always a cell of the grid. *)
Theorem handleNavigation_stays_on_grid key row col :
  (0 ≤ row ≤ 8)%Z → (0 ≤ col ≤ 8)%Z →
  (is_Some (handleNavigation key row col) ↔
   key = "ArrowUp" ∨ key = "ArrowDown" ∨ key = "ArrowLeft" ∨
   key = "ArrowRight") ∧
  (∀ nr nc,
     handleNavigation key row col = Some (nr, nc) →
     (0 ≤ nr ≤ 8)%Z ∧ (0 ≤ nc ≤ 8)%Z ∧
     ((key = "ArrowUp" ∧ nc = col ∧
       ((row = 0 ∧ nr = row) ∨ (0 < row ∧ nr = row - 1))%Z) ∨
      (key = "ArrowDown" ∧ nc = col ∧
       ((row = 8 ∧ nr = row) ∨ (row < 8 ∧ nr = row + 1))%Z) ∨
      (key = "ArrowLeft" ∧ nr = row ∧
       ((col = 0 ∧ nc = col) ∨ (0 < col ∧ nc = col - 1))%Z) ∨
      (key = "ArrowRight" ∧ nr = row ∧
       ((col = 8 ∧ nc = col) ∨ (col < 8 ∧ nc = col + 1))%Z))).
Proof.
  intros Hrow Hcol. unfold handleNavigation.
  destruct (String.eqb_spec key "ArrowUp") as [->|Hup].
  { split; [split; [by left|by eexists]|].
    intros nr nc [= <- <-]. split; [lia|]. split; [lia|].
    left. split; [done|]. lia. }
  destruct (String.eqb_spec key "ArrowDown") as [->|Hdown].
  { split; [split; [by right; left|by eexists]|].
    intros nr nc [= <- <-]. split; [lia|]. split; [lia|].
    right; left. split; [done|]. lia. }
  destruct (String.eqb_spec key "ArrowLeft") as [->|Hleft].
  { split; [split; [by right; right; left|by eexists]|].
    intros nr nc [= <- <-]. split; [lia|]. split; [lia|].
    right; right; left. split; [done|]. lia. }
  destruct (String.eqb_spec key "ArrowRight") as [->|Hright].
  { split; [split; [by right; right; right|by eexists]|].
    intros nr nc [= <- <-]. split; [lia|]. split; [lia|].
    right; right; right. split; [done|]. lia. }
  split; [|done]. split; [by intros [? ?]|]. intros [?|[?|[?|?]]]; done.
Qed.

Lemma handleNavigation_stays_on_grid_witness :
  handleNavigation "ArrowDown" 4 3 = Some (5, 3)%Z ∧
  handleNavigation "ArrowUp" 0 3 = Some (0, 3)%Z ∧
  is_Some (handleNavigation "ArrowLeft" 4 3) ∧
  ¬ is_Some (handleNavigation "Enter" 4 3).
Proof.
  split; [reflexivity|]. split; [reflexivity|].
  pose proof (handleNavigation_stays_on_grid "ArrowLeft" 4 3
                ltac:(lia) ltac:(lia)) as [Hleft _].
  pose proof (handleNavigation_stays_on_grid "Enter" 4 3
                ltac:(lia) ltac:(lia)) as [Henter _].
  split; [apply Hleft; by right; right; left|].
  intros Hsome. apply Henter in Hsome as [?|[?|[?|?]]]; done.
Defined.

(** ** [validateBoard] and the filled cells *)

Lemma length_filter_bool_le {A} (f : A → bool) (P : A → Prop)
    `{!∀ x, Decision (P x)} (l : list A) :
  (∀ x, x ∈ l → f x = true → P x) →
  length (List.filter f l) ≤ length (filter P l).
Proof.
  induction l as [|a l IH]; intros Hfp; [done|].
  rewrite filter_cons. simpl.
  assert (Hrec : length (List.filter f l) ≤ length (filter P l))
    by (apply IH; intros x Hx; apply Hfp; by right).
  pose proof (Hfp a ltac:(by left)) as Ha.
  destruct (f a); destruct (decide (P a)) as [HP|HP]; simpl; try lia.
  destruct HP. by apply Ha.
Qed.

(** X20: only filled cells are ever reported.  Every position in the
    list of [validateBoard] lies on the grid and holds a non-zero value, so
    the list is never longer than the number of non-zero cells, and a board
    of zeros has no conflict. *)
Theorem validateBoard_only_filled_cells b :
  (∀ r c, In (r, c) (validateBoard b) →
          r < 9 ∧ c < 9 ∧ ∃ v, get b r c = Some v ∧ v ≠ 0%Z) ∧
  length (validateBoard b) ≤ count_clues b ∧
  (all_empty b → validateBoard b = []).
Proof.
  assert (Hclue : ∀ p, conflicting b p = true →
            ∃ v, get b p.1 p.2 = Some v ∧ v ≠ 0%Z).
  { intros p. unfold conflicting.
    destruct (get b p.1 p.2) as [v|]; [|done]. intros Hc.
    apply andb_true_iff in Hc as [Hnz _].
    apply negb_true_iff, Z.eqb_neq in Hnz. by exists v. }
  split; [|split].
  - intros r c Hin. apply elem_of_validateBoard in Hin as (Hr & Hc & Hconf).
    split; [done|]. split; [done|]. by apply (Hclue (r, c)).
  - rewrite validateBoard_filter. unfold count_clues.
    apply length_filter_bool_le. intros p _ Hconf.
    destruct (Hclue p Hconf) as (v & Hv & Hnz). unfold is_clue.
    rewrite Hv. split; [done|congruence].
  - intros Hempty. destruct (validateBoard b) as [|[r c] l] eqn:Hv; [done|].
    assert (Hin : In (r, c) (validateBoard b)) by (rewrite Hv; apply in_eq).
    apply elem_of_validateBoard in Hin as (Hr & Hc & Hconf).
    destruct (Hclue (r, c) Hconf) as (v & Hget & Hnz). simpl in Hget.
    rewrite (Hempty r c Hr Hc) in Hget. congruence.
Qed.

Lemma validateBoard_only_filled_cells_witness :
  all_empty empty_board ∧ validateBoard empty_board = [].
Proof.
  assert (Hempty : all_empty empty_board).
  { intros r c Hr Hc.
    do 9 (destruct r as [|r];
          [do 9 (destruct c as [|c]; [reflexivity|]); lia|]).
    lia. }
  split; [exact Hempty|].
  exact (proj2 (proj2 (validateBoard_only_filled_cells empty_board)) Hempty).
Defined.
